(** * Optimistic favorites store and history enrichment

    A shallow embedding of the two JavaScript modules of the media front-end
    that carry design content:

    - [Favorites]: [addFavoriteShow], [removeFavoriteShow] and
      [isShowFavorited], the optimistic add and remove of a TV show with
      rollback when the remote call reports an error;
    - [History]: [fetchWithRetry], the enrichment of the raw watch history
      inside [fetchHistory], and [handleDelete].

    Asynchronous functions are cut at their [await] points: the part that
    runs before the remote call is one function, the part that runs when the
    call settles is another, and the values the closure captured are passed
    from one to the other.  Whatever ran in between is an arbitrary
    intermediate state.  The callbacks of the enrichment, which the page
    starts all at once, are tasks on an event loop: each runs up to its
    next request or timer, and a schedule says which one goes on next. *)

From Stdlib Require Import Ascii.
From stdpp Require Import base gmap sets list strings pretty.

Local Open Scope string_scope.
Local Open Scope list_scope.
Local Open Scope Z_scope.

(** ** JavaScript values shared by both modules *)

(** [a || b] on values that are a string or [undefined]: the empty string
    and [undefined] are falsy. *)
Definition js_or (a b : option string) : option string :=
  match a with
  | Some s => if decide (s = "") then b else Some s
  | None => b
  end.

(** [`${v}`] for a string or [undefined]. *)
Definition template (v : option string) : string := default "undefined" v.

(** Truthiness of a number or [undefined]/[null]: [0] is falsy. *)
Definition truthy_num (v : option Z) : bool :=
  match v with
  | Some n => negb (n =? 0)
  | None => false
  end.

(** [v || 0] on a number or [undefined]/[null]. *)
Definition num_or_zero (v : option Z) : Z :=
  if truthy_num v then default 0 v else 0.

(** An [Error] object; only its message is observed. *)
Record Error := mkError { message : string }.

(** The authenticated identity returned by the auth collaborator. *)
Record User := mkUser { user_id : string }.

(** ** The favorites module *)

Module Favorites.

(** A show as the UI passes it, and an entry of the favorites list.  The
    identifier is a number, as the documentation of [isShowFavorited] has
    it. *)
Record Show := mkShow {
  id : Z;
  type : option string;
  name : option string;
  title : option string;
  season_number : option Z;
  episode_number : option Z }.

(** [{ ...show, type: t }] *)
Definition with_type (show : Show) (t : string) : Show :=
  {| id := id show; type := Some t; name := name show; title := title show;
     season_number := season_number show;
     episode_number := episode_number show |}.

(** The slice of the store the module reads and writes.  Every update of
    the module builds a new array and a new [Set] and never changes one in
    place, so the list and the set are values here. *)
Record State := mkState {
  favorites : list Show;
  favoritedMedia : gset string }.

Inductive Toast :=
  | toast_success (msg : string)
  | toast_error (msg : string).

(** A call issued to the [favorites] table of the backend. *)
Inductive RemoteCall :=
  | remote_insert (user : string) (media_id : Z) (media_type : string)
  | remote_delete (user : string) (media_id : Z) (media_type : string).

(** The store together with what the module emits: notifications, console
    output, and the calls sent to the backend. *)
Record App := mkApp {
  store : State;
  toasts : list Toast;
  console : list (string * Error);
  remote : list RemoteCall }.

Definition setState (f : State → State) (a : App) : App :=
  {| store := f (store a); toasts := toasts a; console := console a;
     remote := remote a |}.

Definition toast (t : Toast) (a : App) : App :=
  {| store := store a; toasts := toasts a ++ [t]; console := console a;
     remote := remote a |}.

Definition console_error (label : string) (e : Error) (a : App) : App :=
  {| store := store a; toasts := toasts a; console := console a ++ [(label, e)];
     remote := remote a |}.

Definition call (c : RemoteCall) (a : App) : App :=
  {| store := store a; toasts := toasts a; console := console a;
     remote := remote a ++ [c] |}.

(** [`${showId}-tv`] *)
Definition favoriteKey (showId : Z) : string := pretty showId +:+ "-tv".

(** [`'${show.name || show.title}' ...`] *)
Definition quoted (show : Show) : string :=
  "'" +:+ template (js_or (name show) (title show)) +:+ "'".

(** What the closure of [addFavoriteShow] holds while the insert is in
    flight. *)
Record PendingAdd := mkPendingAdd {
  add_showId : Z;
  add_favoriteKey : string }.

(** [addFavoriteShow] up to the [await] of the insert.  [user] is what
    [supabase.auth.getUser()] resolved to. *)
Definition add_begin (user : option User) (show : Show) (a : App)
  : App * option PendingAdd :=
  match user with
  | None =>
      (toast (toast_error "You need to be logged in to save favorites.") a,
       None)
  | Some u =>
      let showId := id show in
      let state := store a in
      let favoriteKey := favoriteKey showId in
      if decide (favoriteKey ∈ favoritedMedia state) then (a, None)
      else
        let a1 := setState (λ currentState,
          {| favorites := with_type show "tv" :: favorites currentState;
             favoritedMedia := favoritedMedia currentState ∪ {[favoriteKey]} |}) a in
        let a2 := toast (toast_success
          (quoted show +:+ " has been added to your Favorites.")) a1 in
        (call (remote_insert (user_id u) showId "tv") a2,
         Some (mkPendingAdd showId favoriteKey))
  end.

(** [addFavoriteShow] after the insert settled with [{ error }]. *)
Definition add_settle (p : PendingAdd) (error : option Error) (a : App) : App :=
  match error with
  | None => a
  | Some e =>
      let a1 := console_error "Error adding favorite show:" e a in
      setState (λ currentState,
        {| favoritedMedia := favoritedMedia currentState ∖ {[add_favoriteKey p]};
           favorites :=
             filter (λ f, id f ≠ add_showId p) (favorites currentState) |}) a1
  end.

(** The whole call when nothing else touches the store while the insert is
    in flight. *)
Definition addFavoriteShow (user : option User) (show : Show)
    (error : option Error) (a : App) : App :=
  match add_begin user show a with
  | (a', Some p) => add_settle p error a'
  | (a', None) => a'
  end.

(** What the closure of [removeFavoriteShow] holds while the delete is in
    flight. *)
Record PendingRemove := mkPendingRemove {
  rem_show : Show;
  originalFavorites : list Show;
  originalFavoritedMedia : gset string }.

(** [removeFavoriteShow] up to the [await] of the delete. *)
Definition remove_begin (user : option User) (show : Show) (a : App)
  : App * option PendingRemove :=
  match user with
  | None => (a, None)
  | Some u =>
      let showId := id show in
      let favoriteKey := favoriteKey showId in
      let originalFavorites := favorites (store a) in
      let originalFavoritedMedia := favoritedMedia (store a) in
      let a1 := setState (λ currentState,
        {| favorites := filter (λ fav, id fav ≠ showId) (favorites currentState);
           favoritedMedia :=
             filter (λ k, k ≠ favoriteKey) (favoritedMedia currentState) |}) a in
      let a2 := toast (toast_error
        (quoted show +:+ " has been removed from your Favorites.")) a1 in
      (call (remote_delete (user_id u) showId "tv") a2,
       Some (mkPendingRemove show originalFavorites originalFavoritedMedia))
  end.

(** [removeFavoriteShow] after the delete settled with [{ error }]. *)
Definition remove_settle (p : PendingRemove) (error : option Error) (a : App)
  : App :=
  match error with
  | None => a
  | Some e =>
      let a1 := console_error "Error removing favorite show:" e a in
      let a2 := setState (λ _,
        {| favorites := originalFavorites p;
           favoritedMedia := originalFavoritedMedia p |}) a1 in
      toast (toast_error
        ("Failed to remove " +:+ quoted (rem_show p) +:+ " from favorites.")) a2
  end.

Definition removeFavoriteShow (user : option User) (show : Show)
    (error : option Error) (a : App) : App :=
  match remove_begin user show a with
  | (a', Some p) => remove_settle p error a'
  | (a', None) => a'
  end.

Definition isShowFavorited (showId : Z) (a : App) : bool :=
  bool_decide (favoriteKey showId ∈ favoritedMedia (store a)).

Definition is_error_toast (t : Toast) : bool :=
  match t with toast_error _ => true | toast_success _ => false end.

(** A store that holds shows only: the index holds exactly the keys of the
    entries of the list, and no two entries have the same id. *)
Definition consistent (st : State) : Prop :=
  (∀ k, k ∈ favoritedMedia st ↔
        ∃ f, f ∈ favorites st ∧ k = favoriteKey (id f)) ∧
  NoDup (id <$> favorites st).

(** *** Sample data *)

Definition alice : User := mkUser "alice".
Definition boom : Error := mkError "insert failed".
Definition no_app : App := mkApp (mkState [] ∅) [] [] [].
Definition show42 : Show := mkShow 42 None (Some "Dark") None None None.
Definition movie42 : Show := mkShow 42 (Some "movie") None (Some "Heat") None None.
Definition s1e1 : Show := mkShow 42 (Some "tv") (Some "Dark") None (Some 1) (Some 1).
Definition s2e3 : Show := mkShow 42 (Some "tv") (Some "Dark") None (Some 2) (Some 3).
Definition show7 : Show := mkShow 7 (Some "tv") (Some "Lost") None None None.

End Favorites.

(** ** The history page *)

Module History.

Definition API_BASE_URL : string := "https://api.themoviedb.org/3".

(** The body of a metadata response once parsed: the keys of the body that
    end up in an entry of the history, those the page reads from a show, a
    movie or an episode and those the spread of the details copies along.
    Of [_failed_to_load] only the truthiness is kept, [false] when the body
    has no such key. *)
Record JsonObject := mkJson {
  json_id : option Z;
  json_title : option string;
  json_name : option string;
  json_poster_path : option string;
  json_still_path : option string;
  json_overview : option string;
  json_failed_to_load : bool;
  json_episode_name : option string;
  json_episode_overview : option string }.

(** A [Response].  [body] is what [response.json()] settles to: [None] when
    it rejects, [Some None] for the JSON value [null]. *)
Record Response := mkResponse {
  ok : bool;
  status : Z;
  statusText : string;
  body : option (option JsonObject) }.

(** How the promise returned by [fetch] settles, and after how many
    milliseconds. *)
Inductive FetchOutcome :=
  | resolves_after (ms : Z) (r : Response)
  | rejects_after (ms : Z) (e : Error)
  | never_settles.

Inductive Event :=
  | ev_fetch (url : string)
  | ev_warn (label detail : string)
  | ev_sleep (ms : Z)
  | ev_error (label : string) (e : Error)
  | ev_log (totalItems itemsWithProgress : nat).

(** Result of a computation that may throw. *)
Inductive Res (A : Type) :=
  | Ok (a : A)
  | Throw (e : Error).
Arguments Ok {A} a.
Arguments Throw {A} e.

(** A row of the watch history as the backend returns it. *)
Record RawItem := mkRaw {
  item_user_id : string;
  item_media_id : Z;
  item_media_type : string;
  item_season_number : option Z;
  item_episode_number : option Z;
  item_watched_at : string;
  item_progress_seconds : option Z;
  item_duration_seconds : option Z }.

(** An entry of the displayed history. *)
Record HistoryItem := mkItem {
  id : option Z;
  watch_id : string;
  type : string;
  media_type : string;
  media_id : Z;
  season_number : option Z;
  episode_number : option Z;
  watched_at : string;
  title : option string;
  name : option string;
  poster_path : option string;
  still_path : option string;
  overview : option string;
  _failed_to_load : bool;
  progress_seconds : option Z;
  duration_seconds : option Z;
  episode_name : option string;
  episode_overview : option string }.

(** [`${item.user_id}-${item.media_id}-${item.media_type}-${item.season_number || 0}-${item.episode_number || 0}`] *)
Definition watch_id_of (item : RawItem) : string :=
  item_user_id item +:+ "-" +:+ pretty (item_media_id item) +:+ "-" +:+
  item_media_type item +:+ "-" +:+
  pretty (num_or_zero (item_season_number item)) +:+ "-" +:+
  pretty (num_or_zero (item_episode_number item)).

Section Network.

(** The metadata service: every [fetch] consults it and may change it. *)
Variable World : Type.
Variable fetch : string → World → FetchOutcome * World.

Record St := mkSt {
  world : World;
  trace : list Event }.

Definition M (A : Type) : Type := St → Res A * St.

Definition ret {A} (a : A) : M A := λ s, (Ok a, s).
Definition throw {A} (e : Error) : M A := λ s, (Throw e, s).
Definition bind {A B} (m : M A) (k : A → M B) : M B :=
  λ s, match m s with
       | (Ok a, s') => k a s'
       | (Throw e, s') => (Throw e, s')
       end.
Definition try_catch {A} (m : M A) (handler : Error → M A) : M A :=
  λ s, match m s with
       | (Ok a, s') => (Ok a, s')
       | (Throw e, s') => handler e s'
       end.
Definition emit (ev : Event) : M unit :=
  λ s, (Ok tt, {| world := world s; trace := trace s ++ [ev] |}).

Notation "'let*' x ':=' m 'in' k" := (bind m (λ x, k))
  (at level 10, x name, m at level 100, k at level 200).
Notation "m '>>' k" := (bind m (λ _, k))
  (at level 100, k at level 200, right associativity).

(** [Promise.race([fetchPromise, timeoutPromise])] with the timer at
    10000 ms: the request wins when it settles earlier. *)
Definition race (o : FetchOutcome) : Res Response :=
  match o with
  | resolves_after ms r =>
      if ms <? 10000 then Ok r else Throw (mkError "Request timeout")
  | rejects_after ms e =>
      if ms <? 10000 then Throw e else Throw (mkError "Request timeout")
  | never_settles => Throw (mkError "Request timeout")
  end.

(** What one attempt makes of the raced response: a response that is not
    [ok] is thrown as an error. *)
Definition check_ok (r : Res Response) : Res Response :=
  match r with
  | Ok response =>
      if negb (ok response)
      then Throw (mkError ("HTTP " +:+ pretty (status response) +:+ ": " +:+
                           statusText response))
      else Ok response
  | Throw e => Throw e
  end.

(** One attempt against the service, as a function of the world alone. *)
Definition attempt_on (url : string) (w : World) : Res Response * World :=
  let (o, w') := fetch url w in (check_ok (race o), w').

(** The body of the [try] block of [fetchWithRetry]. *)
Definition attempt (url : string) : M Response :=
  λ s, let (r, w') := attempt_on url (world s) in
       (r, {| world := w'; trace := trace s ++ [ev_fetch url] |}).

(** The [for] loop of [fetchWithRetry] at index [i], with [n] iterations
    left ([n] is [maxRetries - i], or [0] when that is negative).  Leaving
    the loop returns [undefined], here [None]. *)
Fixpoint fetch_loop (url : string) (maxRetries delay : Z) (n : nat) (i : Z)
  : M (option Response) :=
  match n with
  | O => ret None
  | S n' =>
      λ s, match attempt url s with
           | (Ok response, s1) => (Ok (Some response), s1)
           | (Throw error, s1) =>
               (emit (ev_warn ("Fetch attempt " +:+ pretty (i + 1) +:+
                               " failed for " +:+ url +:+ ":") (message error)) >>
                if i =? maxRetries - 1 then throw error
                else
                  emit (ev_sleep (delay * (i + 1))) >>
                  fetch_loop url maxRetries delay n' (i + 1)) s1
           end
  end.

Definition fetchWithRetry (url : string) (maxRetries delay : Z)
  : M (option Response) :=
  fetch_loop url maxRetries delay (Z.to_nat maxRetries) 0.

(** [response.json()]; calling it on [undefined] throws. *)
Definition response_json (response : option Response) : M (option JsonObject) :=
  match response with
  | None => throw (mkError "Cannot read properties of undefined (reading 'json')")
  | Some r =>
      match body r with
      | None => throw (mkError "Unexpected end of JSON input")
      | Some j => ret j
      end
  end.

(** Reading a property of the parsed body; on [null] it throws. *)
Definition deref (j : option JsonObject) : M JsonObject :=
  match j with
  | None => throw (mkError "Cannot read properties of null")
  | Some o => ret o
  end.

(** The [result] object built from the details and the history row: the
    keys of the details, then the keys the literal sets after the spread. *)
Definition result_of (details : JsonObject) (item : RawItem) : HistoryItem :=
  {| id := json_id details;
     watch_id := watch_id_of item;
     type := item_media_type item;
     media_type := item_media_type item;
     media_id := item_media_id item;
     season_number := item_season_number item;
     episode_number := item_episode_number item;
     watched_at := item_watched_at item;
     title := json_title details;
     name := json_name details;
     poster_path := json_poster_path details;
     still_path := json_still_path details;
     overview := json_overview details;
     _failed_to_load := json_failed_to_load details;
     progress_seconds := item_progress_seconds item;
     duration_seconds := item_duration_seconds item;
     episode_name := json_episode_name details;
     episode_overview := json_episode_overview details |}.

(** [{ ...result, episode_name, still_path, episode_overview }] *)
Definition with_episode (result : HistoryItem) (episodeDetails : JsonObject)
  : HistoryItem :=
  {| id := id result; watch_id := watch_id result; type := type result;
     media_type := media_type result; media_id := media_id result;
     season_number := season_number result;
     episode_number := episode_number result;
     watched_at := watched_at result; title := title result;
     name := name result; poster_path := poster_path result;
     still_path := json_still_path episodeDetails;
     overview := overview result;
     _failed_to_load := _failed_to_load result;
     progress_seconds := progress_seconds result;
     duration_seconds := duration_seconds result;
     episode_name := json_name episodeDetails;
     episode_overview := json_overview episodeDetails |}.

(** The placeholder returned when the details could not be loaded. *)
Definition placeholder (item : RawItem) : HistoryItem :=
  {| id := Some (item_media_id item);
     watch_id := watch_id_of item;
     type := item_media_type item;
     media_type := item_media_type item;
     media_id := item_media_id item;
     season_number := item_season_number item;
     episode_number := item_episode_number item;
     watched_at := item_watched_at item;
     title := Some (if decide (item_media_type item = "tv")
                    then "Unknown TV Show" else "Unknown Movie");
     name := if decide (item_media_type item = "tv")
             then Some "Unknown TV Show" else None;
     poster_path := None;
     still_path := None;
     overview := Some "Details could not be loaded";
     _failed_to_load := true;
     progress_seconds := item_progress_seconds item;
     duration_seconds := item_duration_seconds item;
     episode_name := None;
     episode_overview := None |}.

Definition details_url (item : RawItem) : string :=
  API_BASE_URL +:+ "/tmdb/" +:+ item_media_type item +:+ "/" +:+
  pretty (item_media_id item).

Definition episode_url (item : RawItem) : string :=
  API_BASE_URL +:+ "/tmdb/tv/" +:+ pretty (item_media_id item) +:+
  "/season/" +:+ template (pretty <$> item_season_number item) +:+
  "/episode/" +:+ template (pretty <$> item_episode_number item).

Definition is_episode (item : RawItem) : bool :=
  bool_decide (item_media_type item = "tv")
  && truthy_num (item_season_number item)
  && truthy_num (item_episode_number item).

(** The callback mapped over the history rows. *)
Definition enrich (item : RawItem) : M HistoryItem :=
  try_catch
    (let* response := fetchWithRetry (details_url item) 3 1000 in
     let* json := response_json response in
     let* details := deref json in
     let result := result_of details item in
     if is_episode item then
       try_catch
         (let* episodeResponse := fetchWithRetry (episode_url item) 3 1000 in
          let* episodeJson := response_json episodeResponse in
          let* episodeDetails := deref episodeJson in
          ret (with_episode result episodeDetails))
         (λ episodeError,
            emit (ev_error "Error fetching episode details:" episodeError) >>
            ret result)
     else ret result)
    (λ error,
       emit (ev_error ("Error fetching details for " +:+ item_media_type item
                       +:+ " " +:+ pretty (item_media_id item) +:+ ":") error) >>
       ret (placeholder item)).

(** An element of the array [Promise.allSettled] resolves to. *)
Inductive Settled :=
  | fulfilled (value : HistoryItem)
  | rejected (reason : Error).

(** *** The callbacks on the event loop *)

(** A computation as the event loop sees it: it has settled, or it goes on
    by writing to the console, by waiting for a timer, or by sending a
    request and taking up how that request settles. *)
Inductive Task (A : Type) : Type :=
  | Done (r : Res A)
  | ConsoleWarn (label detail : string) (k : Task A)
  | ConsoleError (label : string) (e : Error) (k : Task A)
  | Wait (ms : Z) (k : Task A)
  | Send (url : string) (k : FetchOutcome → Task A).
Arguments Done {A} r.
Arguments ConsoleWarn {A} label detail k.
Arguments ConsoleError {A} label e k.
Arguments Wait {A} ms k.
Arguments Send {A} url k.

(** [await] of a task, then the rest. *)
Fixpoint and_then {A B} (t : Task A) (k : A → Task B) : Task B :=
  match t with
  | Done (Ok a) => k a
  | Done (Throw e) => Done (Throw e)
  | ConsoleWarn label detail t' => ConsoleWarn label detail (and_then t' k)
  | ConsoleError label e t' => ConsoleError label e (and_then t' k)
  | Wait ms t' => Wait ms (and_then t' k)
  | Send url t' => Send url (λ o, and_then (t' o) k)
  end.

(** [try { t } catch (e) { handler e }] *)
Fixpoint catch {A} (t : Task A) (handler : Error → Task A) : Task A :=
  match t with
  | Done (Ok a) => Done (Ok a)
  | Done (Throw e) => handler e
  | ConsoleWarn label detail t' => ConsoleWarn label detail (catch t' handler)
  | ConsoleError label e t' => ConsoleError label e (catch t' handler)
  | Wait ms t' => Wait ms (catch t' handler)
  | Send url t' => Send url (λ o, catch (t' o) handler)
  end.

(** The loop of [fetchWithRetry] as a task: it stops at each request and
    at each wait before a retry. *)
Fixpoint fetch_loop_task (url : string) (maxRetries delay : Z) (n : nat) (i : Z)
  : Task (option Response) :=
  match n with
  | O => Done (Ok None)
  | S n' =>
      Send url (λ o,
        match check_ok (race o) with
        | Ok response => Done (Ok (Some response))
        | Throw error =>
            ConsoleWarn ("Fetch attempt " +:+ pretty (i + 1) +:+
                         " failed for " +:+ url +:+ ":") (message error)
              (if i =? maxRetries - 1 then Done (Throw error)
               else Wait (delay * (i + 1))
                      (fetch_loop_task url maxRetries delay n' (i + 1)))
        end)
  end.

Definition fetchWithRetry_task (url : string) (maxRetries delay : Z)
  : Task (option Response) :=
  fetch_loop_task url maxRetries delay (Z.to_nat maxRetries) 0.

(** [response.json()] and the reading of a property of the body: they send
    nothing and write nothing, so the task does not stop at them. *)
Definition response_json_task (response : option Response)
  : Task (option JsonObject) :=
  match response with
  | None =>
      Done (Throw (mkError "Cannot read properties of undefined (reading 'json')"))
  | Some r =>
      match body r with
      | None => Done (Throw (mkError "Unexpected end of JSON input"))
      | Some j => Done (Ok j)
      end
  end.

Definition deref_task (j : option JsonObject) : Task JsonObject :=
  match j with
  | None => Done (Throw (mkError "Cannot read properties of null"))
  | Some o => Done (Ok o)
  end.

(** The callback mapped over the history rows, as a task. *)
Definition enrich_task (item : RawItem) : Task HistoryItem :=
  catch
    (and_then (fetchWithRetry_task (details_url item) 3 1000) (λ response,
     and_then (response_json_task response) (λ json,
     and_then (deref_task json) (λ details,
     let result := result_of details item in
     if is_episode item then
       catch
         (and_then (fetchWithRetry_task (episode_url item) 3 1000)
            (λ episodeResponse,
          and_then (response_json_task episodeResponse) (λ episodeJson,
          and_then (deref_task episodeJson) (λ episodeDetails,
          Done (Ok (with_episode result episodeDetails))))))
         (λ episodeError,
            ConsoleError "Error fetching episode details:" episodeError
              (Done (Ok result)))
     else Done (Ok result)))))
    (λ error,
       ConsoleError ("Error fetching details for " +:+ item_media_type item
                     +:+ " " +:+ pretty (item_media_id item) +:+ ":") error
         (Done (Ok (placeholder item)))).

(** A task run to its end with nothing in between. *)
Fixpoint run {A} (t : Task A) (s : St) : Res A * St :=
  match t with
  | Done r => (r, s)
  | ConsoleWarn label detail k =>
      run k {| world := world s; trace := trace s ++ [ev_warn label detail] |}
  | ConsoleError label e k =>
      run k {| world := world s; trace := trace s ++ [ev_error label e] |}
  | Wait ms k => run k {| world := world s; trace := trace s ++ [ev_sleep ms] |}
  | Send url k =>
      let (o, w') := fetch url (world s) in
      run (k o) {| world := w'; trace := trace s ++ [ev_fetch url] |}
  end.

(** A task on the event loop, with the answers its requests got so far. *)
Record Job (A : Type) := mkJob {
  answers : list FetchOutcome;
  rest : Task A }.
Arguments mkJob {A}.
Arguments answers {A}.
Arguments rest {A}.

(** A task runs until it has sent a request or set a timer, or has settled;
    there it gives the event loop back.  The service answers a request when
    it is sent; the task takes the answer up when it runs next. *)
Fixpoint advance_task {A} (got : list FetchOutcome) (t : Task A) (s : St)
  : Job A * St :=
  match t with
  | Done r => (mkJob got (Done r), s)
  | ConsoleWarn label detail k =>
      advance_task got k
        {| world := world s; trace := trace s ++ [ev_warn label detail] |}
  | ConsoleError label e k =>
      advance_task got k
        {| world := world s; trace := trace s ++ [ev_error label e] |}
  | Wait ms k =>
      (mkJob got k, {| world := world s; trace := trace s ++ [ev_sleep ms] |})
  | Send url k =>
      let (o, w') := fetch url (world s) in
      (mkJob (got ++ [o]) (k o),
       {| world := w'; trace := trace s ++ [ev_fetch url] |})
  end.

Definition advance {A} (j : Job A) (s : St) : Job A * St :=
  advance_task (answers j) (rest j) s.

(** [historyData.map(async ...)]: every callback is started in the order of
    the rows and runs until its first request is sent. *)
Fixpoint start_all {A} (ts : list (Task A)) (s : St) : list (Job A) * St :=
  match ts with
  | [] => ([], s)
  | t :: ts' =>
      let (j, s1) := advance (mkJob [] t) s in
      let (js, s2) := start_all ts' s1 in
      (j :: js, s2)
  end.

(** The event loop runs the task at position [i] next. *)
Definition resume {A} (i : nat) (pool : list (Job A)) (s : St)
  : list (Job A) * St :=
  match pool !! i with
  | Some j => let (j', s') := advance j s in (<[i:=j']> pool, s')
  | None => (pool, s)
  end.

(** The event loop runs the tasks in the order of a schedule. *)
Fixpoint follow {A} (schedule : list nat) (pool : list (Job A)) (s : St)
  : list (Job A) * St :=
  match schedule with
  | [] => (pool, s)
  | i :: schedule' =>
      let (pool', s') := resume i pool s in follow schedule' pool' s'
  end.

(** A task run to its end, with the answers its requests got. *)
Fixpoint finish_task {A} (got : list FetchOutcome) (t : Task A) (s : St)
  : (list FetchOutcome * Res A) * St :=
  match t with
  | Done r => ((got, r), s)
  | ConsoleWarn label detail k =>
      finish_task got k
        {| world := world s; trace := trace s ++ [ev_warn label detail] |}
  | ConsoleError label e k =>
      finish_task got k
        {| world := world s; trace := trace s ++ [ev_error label e] |}
  | Wait ms k =>
      finish_task got k {| world := world s; trace := trace s ++ [ev_sleep ms] |}
  | Send url k =>
      let (o, w') := fetch url (world s) in
      finish_task (got ++ [o]) (k o)
        {| world := w'; trace := trace s ++ [ev_fetch url] |}
  end.

(** What is left of the tasks is run to the end, task after task. *)
Fixpoint finish_all {A} (pool : list (Job A)) (s : St)
  : list (list FetchOutcome * Res A) * St :=
  match pool with
  | [] => ([], s)
  | j :: pool' =>
      let (f, s1) := finish_task (answers j) (rest j) s in
      let (fs, s2) := finish_all pool' s1 in
      (f :: fs, s2)
  end.

(** The tasks on the event loop until all have settled: all are started,
    then they go on in the order of the schedule, which stands for the order
    in which answers and timers arrive; what the schedule leaves unfinished
    is finished in the order of the rows. *)
Definition settle_all {A} (ts : list (Task A)) (schedule : list nat) (s : St)
  : list (list FetchOutcome * Res A) * St :=
  let (pool, s1) := start_all ts s in
  let (pool', s2) := follow schedule pool s1 in
  finish_all pool' s2.

Definition settled (r : Res HistoryItem) : Settled :=
  match r with
  | Ok v => fulfilled v
  | Throw e => rejected e
  end.

(** [Promise.allSettled] of the started callbacks: the results in the order
    of the rows, whatever the order in which they settled. *)
Definition allSettled (ts : list (Task HistoryItem)) (schedule : list nat)
    (s : St) : list Settled * St :=
  let (finals, s') := settle_all ts schedule s in
  (map (λ f, settled (snd f)) finals, s').

(** The answers the requests of each callback got. *)
Definition answers_received (ts : list (Task HistoryItem))
    (schedule : list nat) (s : St) : list (list FetchOutcome) :=
  map fst (fst (settle_all ts schedule s)).

(** The schedule of [n] tasks that go on in turn, [rounds] times over: the
    order of arrival when all answers take equally long. *)
Definition in_turn (n rounds : nat) : list nat :=
  concat (replicate rounds (seq 0 n)).

(** An object is truthy. *)
Definition truthy_object (v : HistoryItem) : bool := true.

(** [result.status === 'fulfilled' && result.value], then [result.value]. *)
Definition successful (result : Settled) : option HistoryItem :=
  match result with
  | fulfilled value => if truthy_object value then Some value else None
  | rejected _ => None
  end.

(** The enrichment of the history rows: [detailedHistory] and
    [successfulResults] of [fetchHistory]. *)
Definition enrichHistory (historyData : list RawItem) (schedule : list nat)
    (s : St) : list HistoryItem * St :=
  let (detailedHistory, s') :=
    allSettled (map enrich_task historyData) schedule s in
  (omap successful detailedHistory, s').

(** The state of the page component. *)
Record Page := mkPage {
  page_history : list HistoryItem;
  loading : bool;
  error : option string }.

Definition has_progress (item : RawItem) : bool :=
  match item_progress_seconds item with
  | Some n => 0 <? n
  | None => false
  end.

(** The [catch] and [finally] blocks of [fetchHistory]. *)
Definition fetchHistory_failed (e : Error) (s : St) : Page * St :=
  ({| page_history := []; loading := false;
      error := Some "Failed to load watch history. Please try again." |},
   {| world := world s;
      trace := trace s ++ [ev_error "Error fetching watch history:" e] |}).

(** [fetchHistory].  [connectionOk] is what [testSupabaseConnection()]
    settles to and [historyData] what [getWatchHistoryWithProgress()]
    settles to, [None] standing for [null]; [schedule] is the order in which
    the event loop runs the callbacks of the enrichment. *)
Definition fetchHistory (user : option User) (connectionOk : Res bool)
    (historyData : Res (option (list RawItem))) (schedule : list nat)
    (p : Page) (s : St) : Page * St :=
  match user with
  | None =>
      ({| page_history := page_history p; loading := false; error := error p |}, s)
  | Some _ =>
      match connectionOk with
      | Throw e => fetchHistory_failed e s
      | Ok false =>
          fetchHistory_failed
            (mkError "Supabase connection test failed. Please check your internet connection and try again.") s
      | Ok true =>
          match historyData with
          | Throw e => fetchHistory_failed e s
          | Ok None | Ok (Some []) =>
              ({| page_history := []; loading := false; error := None |}, s)
          | Ok (Some rows) =>
              let s1 := {| world := world s;
                           trace := trace s ++
                             [ev_log (length rows)
                                (length (filter (λ item, has_progress item) rows))] |} in
              let (successfulResults, s2) := enrichHistory rows schedule s1 in
              ({| page_history := successfulResults; loading := false;
                  error := None |}, s2)
          end
      end
  end.

(** How many requests a trace holds. *)
Definition is_fetch (ev : Event) : bool :=
  match ev with ev_fetch _ => true | _ => false end.

Definition attempts (tr : list Event) : nat :=
  length (filter (λ ev, is_fetch ev) tr).

(** The answers of the service to [n] attempts in a row. *)
Fixpoint outcomes (url : string) (n : nat) (w : World) : list (Res Response) :=
  match n with
  | O => []
  | S n' => let (r, w') := attempt_on url w in r :: outcomes url n' w'
  end.

(** The world after [n] attempts in a row. *)
Fixpoint world_after (url : string) (n : nat) (w : World) : World :=
  match n with
  | O => w
  | S n' => world_after url n' (snd (attempt_on url w))
  end.

End Network.

Arguments mkSt {World}.
Arguments world {World}.
Arguments trace {World}.
Arguments Done {A} r.
Arguments ConsoleWarn {A} label detail k.
Arguments ConsoleError {A} label e k.
Arguments Wait {A} ms k.
Arguments Send {A} url k.
Arguments mkJob {A}.
Arguments answers {A}.
Arguments rest {A}.

Definition is_failure (r : Res Response) : Prop :=
  match r with Ok _ => False | Throw _ => True end.

(** A request that [fetchWithRetry] counts as failed: it timed out, it was
    rejected, or its response is not [ok]. *)
Definition failed (o : FetchOutcome) : Prop := is_failure (check_ok (race o)).

(** What a task settles to when its requests get the answers [os], one
    each, in order; [None] when the answers are too few or too many. *)
Fixpoint feed {A} (t : Task A) (os : list FetchOutcome) : option (Res A) :=
  match t with
  | Done r => match os with [] => Some r | _ :: _ => None end
  | ConsoleWarn _ _ k | ConsoleError _ _ k | Wait _ k => feed k os
  | Send _ k => match os with o :: os' => feed (k o) os' | [] => None end
  end.

Section Delete.

(** The watch-history backend and the global store, with the functions the
    page imports from them. *)
Variables Remote Store : Type.
Variable deleteWatchItem : HistoryItem → Remote → option Error * Remote.
Variable removeContinueWatchingItem : Z → Store → Store.
Variable fetchContinueWatching : Remote → Store → option Error * Store.

Record View := mkView {
  history : list HistoryItem;
  store : Store;
  remote : Remote;
  console : list (string * Error) }.

(** [handleDelete]; a rejected promise is [Some error]. *)
Definition handleDelete (itemToDelete : HistoryItem) (v : View) : View :=
  let history' :=
    filter (λ item, watch_id item ≠ watch_id itemToDelete) (history v) in
  let store' := removeContinueWatchingItem (media_id itemToDelete) (store v) in
  match deleteWatchItem itemToDelete (remote v) with
  | (None, remote') =>
      match fetchContinueWatching remote' store' with
      | (None, store'') =>
          {| history := history'; store := store''; remote := remote';
             console := console v |}
      | (Some error, store'') =>
          {| history := history'; store := store''; remote := remote';
             console := console v ++
               [("Failed to delete item or refetch continue watching:", error)] |}
      end
  | (Some error, remote') =>
      {| history := history'; store := store'; remote := remote';
         console := console v ++
           [("Failed to delete item or refetch continue watching:", error)] |}
  end.

End Delete.

(** The row an entry of the displayed history stands for. *)
Definition stands_for (item : RawItem) (o : HistoryItem) : Prop :=
  watch_id o = watch_id_of item ∧ media_id o = item_media_id item ∧
  watched_at o = item_watched_at item ∧
  progress_seconds o = item_progress_seconds item ∧
  duration_seconds o = item_duration_seconds item.

Arguments mkView {Remote Store}.
Arguments history {Remote Store}.
Arguments store {Remote Store}.
Arguments remote {Remote Store}.
Arguments console {Remote Store}.

(** The delays a trace holds, in order. *)
Definition sleeps (tr : list Event) : list Z :=
  omap (λ ev, match ev with ev_sleep ms => Some ms | _ => None end) tr.

Definition is_warn (ev : Event) : bool :=
  match ev with ev_warn _ _ => true | _ => false end.

(** How many warnings a trace holds. *)
Definition warnings (tr : list Event) : nat :=
  length (filter (λ ev, is_warn ev) tr).

(** The urls requested in a trace, in order. *)
Definition requested (tr : list Event) : list string :=
  omap (λ ev, match ev with ev_fetch url => Some url | _ => None end) tr.

(** A request that does not settle before the timer of the race. *)
Definition slow (o : FetchOutcome) : Prop :=
  match o with
  | resolves_after ms _ | rejects_after ms _ => 10000 ≤ ms
  | never_settles => True
  end.


(** The label of the console entry of a row whose details failed. *)
Definition details_error_label (item : RawItem) : string :=
  "Error fetching details for " +:+ item_media_type item +:+ " " +:+
  pretty (item_media_id item) +:+ ":".

(** The checks [fetchHistory] makes before it enriches: the connection
    test threw or said no, or the history could not be read. *)
Definition precondition_failed (connectionOk : Res bool)
    (historyData : Res (option (list RawItem))) : bool :=
  match connectionOk, historyData with
  | Ok true, Ok _ => false
  | _, _ => true
  end.

(** The history read from the backend holds no row. *)
Definition no_rows (historyData : Res (option (list RawItem))) : bool :=
  match historyData with
  | Ok None | Ok (Some []) => true
  | _ => false
  end.

(** Whether a string holds the separator of the watch id. *)
Fixpoint has_dash (s : string) : bool :=
  match s with
  | EmptyString => false
  | String c s' => bool_decide (c = "-"%char) || has_dash s'
  end.

(** A row with a media type free of dashes and no negative number. *)
Definition plain_row (item : RawItem) : Prop :=
  0 ≤ item_media_id item ∧ has_dash (item_media_type item) = false ∧
  0 ≤ num_or_zero (item_season_number item) ∧
  0 ≤ num_or_zero (item_episode_number item).

(** Two rows for the same media, season and episode, a missing season or
    episode counting as [0]. *)
Definition same_slot (r1 r2 : RawItem) : Prop :=
  item_media_id r1 = item_media_id r2 ∧
  item_media_type r1 = item_media_type r2 ∧
  num_or_zero (item_season_number r1) = num_or_zero (item_season_number r2) ∧
  num_or_zero (item_episode_number r1) = num_or_zero (item_episode_number r2).

(** A job of a task, for a property [Q] of the answers of the service:
    fed the answers the job got and then any others, the task goes on as
    what is left of the job does; and the answers the job got have [Q]. *)
Definition tracks {A} (Q : FetchOutcome → Prop) (t : Task A) (j : Job A)
  : Prop :=
  (∀ os, feed t (answers j ++ os) = feed (rest j) os) ∧ Forall Q (answers j).

(** How many answers the jobs of a pool got. *)
Definition sent {A} (pool : list (Job A)) : nat :=
  sum_list_with (λ j, length (answers j)) pool.

(** A task settled to what it settles to when fed the answers its requests
    got, all of which have [Q]. *)
Definition replayed {A} (Q : FetchOutcome → Prop) (t : Task A)
    (f : list FetchOutcome * Res A) : Prop :=
  feed t (fst f) = Some (snd f) ∧ Forall Q (fst f).

(** An entry built from bodies that answers of the service carried. *)
Definition loaded_from (item : RawItem) (os : list FetchOutcome)
    (v : HistoryItem) : Prop :=
  ∃ o response details,
    o ∈ os ∧ check_ok (race o) = Ok response ∧
    body response = Some (Some details) ∧
    (v = result_of details item ∨
     (is_episode item = true ∧
      ∃ o2 response2 episodeDetails,
        o2 ∈ os ∧ check_ok (race o2) = Ok response2 ∧
        body response2 = Some (Some episodeDetails) ∧
        v = with_episode (result_of details item) episodeDetails)).


(** *** Sample services and rows *)

(** A service that answers from a script, one entry for each request; once
    the script is used up, requests never settle. *)
Definition scripted (url : string) (w : list FetchOutcome)
  : FetchOutcome * list FetchOutcome :=
  match w with
  | o :: w' => (o, w')
  | [] => (never_settles, [])
  end.

Definition heat_json : JsonObject :=
  mkJson (Some 949) (Some "Heat") None (Some "/heat.jpg") None
         (Some "A crew of thieves.") false None None.

Definition ok_response : Response :=
  mkResponse true 200 "OK" (Some (Some heat_json)).

Definition unavailable : Response :=
  mkResponse false 503 "Service Unavailable" None.

(** Fails twice, then answers. *)
Definition flaky : list FetchOutcome :=
  [rejects_after 30 (mkError "Failed to fetch");
   resolves_after 200 unavailable;
   resolves_after 150 ok_response].

(** Never answers within the timeout. *)
Definition stalled : list FetchOutcome :=
  [never_settles; resolves_after 12000 ok_response; never_settles].

(** A service that knows the movie 2 and answers 404 to everything else. *)
Definition catalogue (url : string) (w : unit) : FetchOutcome * unit :=
  if decide (url = "https://api.themoviedb.org/3/tmdb/movie/2")
  then (resolves_after 120 ok_response, tt)
  else (resolves_after 80 (mkResponse false 404 "Not Found" None), tt).

(** A service that knows the series 1 but none of its episodes. *)
Definition series (url : string) (w : unit) : FetchOutcome * unit :=
  if decide (url = "https://api.themoviedb.org/3/tmdb/tv/1")
  then (resolves_after 120 ok_response, tt)
  else (resolves_after 80 (mkResponse false 404 "Not Found" None), tt).

(** A service that answers every request with the same good response. *)
Definition generous (url : string) (w : unit) : FetchOutcome * unit :=
  (resolves_after 100 ok_response, tt).

(** A service whose good responses carry a body that does not parse. *)
Definition garbled (url : string) (w : unit) : FetchOutcome * unit :=
  (resolves_after 100 (mkResponse true 200 "OK" None), tt).

(** A service that answers well, but only after 15 seconds. *)
Definition tarpit (url : string) (w : unit) : FetchOutcome * unit :=
  (resolves_after 15000 ok_response, tt).

Definition row_lost : RawItem :=
  mkRaw "u1" 1 "tv" (Some 1) (Some 2) "2024-01-01" (Some 30) (Some 100).

Definition row_heat : RawItem :=
  mkRaw "u1" 2 "movie" None None "2024-01-02" None None.

Definition row_ronin : RawItem :=
  mkRaw "u1" 3 "movie" None None "2024-01-03" None None.

Definition not_found : FetchOutcome :=
  resolves_after 80 (mkResponse false 404 "Not Found" None).

(** A script with one good answer, the second. *)
Definition second_only : list FetchOutcome :=
  [not_found; resolves_after 120 ok_response; not_found; not_found; not_found].

(** A script with one good answer, the fourth. *)
Definition fourth_only : list FetchOutcome :=
  [not_found; not_found; not_found; resolves_after 120 ok_response;
   not_found; not_found].

(** A backend holding the watch ids of its rows, whose delete always
    fails and removes nothing. *)
Definition failing_delete (item : HistoryItem) (r : list string)
  : option Error * list string :=
  (Some (mkError "delete failed"), r).

Definition refetch (r : list string) (st : list Z) : option Error * list Z :=
  (None, st).

Definition drop_continue (media : Z) (st : list Z) : list Z :=
  filter (λ m, m ≠ media) st.

End History.

(** ** The card of a show *)

Module MovieCard.

(** [item.nextAiringEpisode]: the number of the episode and the seconds
    until it airs, a whole number. *)
Record NextAiring := mkNext {
  episode : Z;
  timeUntilAiring : Z }.

(** [Math.floor(timeUntilAiring / (24 * 60 * 60))] *)
Definition days (timeUntilAiring : Z) : Z := timeUntilAiring / (24 * 60 * 60).

(** [Math.floor((timeUntilAiring % (24 * 60 * 60)) / (60 * 60))] *)
Definition hours (timeUntilAiring : Z) : Z :=
  (timeUntilAiring `mod` (24 * 60 * 60)) / (60 * 60).

Definition timeText (timeUntilAiring : Z) : string :=
  let days := days timeUntilAiring in
  let hours := hours timeUntilAiring in
  if 0 <? days then pretty days +:+ "d " +:+ pretty hours +:+ "h"
  else if 0 <? hours then pretty hours +:+ "h"
  else "<1h".

(** [getNextEpisodeInfo]: the text of the element it returns, [None] for
    [null]. *)
Definition getNextEpisodeInfo (type : string)
    (nextAiringEpisode : option NextAiring) : option string :=
  match nextAiringEpisode with
  | None => None
  | Some next =>
      if decide (type ≠ "anime") then None
      else if timeUntilAiring next <=? 0 then None
      else Some ("Ep " +:+ pretty (episode next) +:+ " in " +:+
                 timeText (timeUntilAiring next))
  end.

End MovieCard.

(** * Properties *)

(** ** Strings *)

Lemma string_app_cons (a : Ascii.ascii) (s t : string) :
  String a s +:+ t = String a (s +:+ t).
Proof. reflexivity. Qed.

Lemma string_length_app (s t : string) :
  String.length (s +:+ t) = (String.length s + String.length t)%nat.
Proof.
  induction s as [|a s IH]; [done|].
  rewrite string_app_cons. simpl. by rewrite IH.
Qed.

Lemma string_app_inv_tail (s1 s2 t : string) :
  s1 +:+ t = s2 +:+ t → s1 = s2.
Proof.
  revert s2. induction s1 as [|a s1 IH]; intros [|b s2] H.
  - done.
  - apply (f_equal String.length) in H.
    rewrite string_app_cons, string_length_app in H. simpl in H.
    rewrite string_length_app in H. lia.
  - apply (f_equal String.length) in H.
    rewrite string_app_cons, string_length_app in H. simpl in H.
    rewrite string_length_app in H. lia.
  - rewrite !string_app_cons in H. injection H as -> H.
    f_equal. by apply IH.
Qed.

(** ** The favorites module *)

Section FavoritesProperties.

Import Favorites.

Implicit Types (a mid : App) (show : Show) (u : User) (e : Error).

Lemma favoriteKey_inj (x y : Z) : favoriteKey x = favoriteKey y → x = y.
Proof.
  unfold favoriteKey. intros H%string_app_inv_tail.
  by apply (inj pretty) in H.
Qed.

(** The key of a show is [`${id}-tv`] whatever else the show carries. *)
Lemma add_begin_pending u show a a1 p :
  add_begin (Some u) show a = (a1, Some p) →
  add_showId p = id show ∧ add_favoriteKey p = favoriteKey (id show) ∧
  favoriteKey (id show) ∉ favoritedMedia (store a).
Proof.
  unfold add_begin. case_decide; [done|]. by intros [= <- <-].
Qed.

Lemma add_begin_fresh u show a :
  favoriteKey (id show) ∉ favoritedMedia (store a) →
  add_begin (Some u) show a =
    (call (remote_insert (user_id u) (id show) "tv")
       (toast (toast_success (quoted show +:+ " has been added to your Favorites."))
          (setState (λ currentState,
             {| favorites := with_type show "tv" :: favorites currentState;
                favoritedMedia :=
                  favoritedMedia currentState ∪ {[favoriteKey (id show)]} |}) a)),
     Some (mkPendingAdd (id show) (favoriteKey (id show)))).
Proof. intros H. unfold add_begin. by rewrite decide_False. Qed.

(** After a failed insert settles the key is gone and no entry with the
    show's id is left, whatever happened to the store in between. *)
Lemma add_settle_failure_absent p e mid :
  (add_favoriteKey p ∉ favoritedMedia (store (add_settle p (Some e) mid))) ∧
  (∀ f, f ∈ favorites (store (add_settle p (Some e) mid)) → id f ≠ add_showId p).
Proof.
  split; simpl.
  - apply not_elem_of_difference. right. by apply elem_of_singleton.
  - by intros f [? _]%list_elem_of_filter.
Qed.

Lemma filter_id_all (l : list Show) (x : Z) :
  (∀ f, f ∈ l → id f ≠ x) → filter (λ f, id f ≠ x) l = l.
Proof.
  induction l as [|f l IH]; intros H; [done|].
  rewrite filter_cons_True by (apply H; left).
  f_equal. apply IH. intros g Hg. apply H. by right.
Qed.

(** The rollback gives back the store as it was when no other entry of the
    list has the id of the show. *)
Lemma add_failure_rollback_exact u show e a :
  favoriteKey (id show) ∉ favoritedMedia (store a) →
  (∀ f, f ∈ favorites (store a) → id f ≠ id show) →
  store (addFavoriteShow (Some u) show (Some e) a) = store a.
Proof.
  intros Hkey Hid. unfold addFavoriteShow. rewrite add_begin_fresh by done.
  destruct a as [[favs idx] ts cs rs]; simpl in *.
  rewrite filter_cons_False by (simpl; tauto).
  rewrite filter_id_all by done.
  f_equal. apply set_eq. intros k.
  rewrite elem_of_difference, elem_of_union, elem_of_singleton.
  split; [tauto|]. intros Hk. split; [tauto|]. by intros ->.
Qed.

(** An authenticated add emits no error notification, whatever the insert
    answers. *)
Lemma add_authenticated_no_error_toast u show (error : option Error) a :
  filter (λ t, is_error_toast t) (toasts (addFavoriteShow (Some u) show error a))
  = filter (λ t, is_error_toast t) (toasts a).
Proof.
  unfold addFavoriteShow, add_begin. case_decide; [done|].
  destruct error; simpl; rewrite filter_app; simpl;
    rewrite filter_cons_False by (simpl; tauto); by rewrite filter_nil, app_nil_r.
Qed.

(** C1, at a failing input: alice adds show 42 to an empty store and the
    insert fails.  The store is rolled back and the failure is written to the
    console, but the only notification the user gets is the success notice
    of the optimistic step: no error notification is emitted.  With a movie
    of the same id in the list beforehand, the rollback removes the movie as
    well, so the store is not the one before the call. *)
Theorem addFavoriteShow_failure_at_42 :
  let a' := addFavoriteShow (Some alice) show42 (Some boom) no_app in
  store a' = store no_app ∧
  isShowFavorited 42 a' = false ∧
  console a' = [("Error adding favorite show:", boom)] ∧
  toasts a' = [toast_success "'Dark' has been added to your Favorites."] ∧
  filter (λ t, is_error_toast t) (toasts a') = [] ∧
  let b := mkApp (mkState [movie42] {["42-movie"]}) [] [] [] in
  let b' := addFavoriteShow (Some alice) show42 (Some boom) b in
  favorites (store b') = [] ∧ store b' ≠ store b.
Proof.
  cbv zeta. split; [|split; [|split; [|split; [|split; [|split]]]]].
  - rewrite add_failure_rollback_exact; [done|set_solver|].
    by intros f ?%elem_of_nil.
  - apply bool_decide_eq_false.
    unfold addFavoriteShow. rewrite add_begin_fresh by set_solver.
    apply add_settle_failure_absent.
  - unfold addFavoriteShow. by rewrite add_begin_fresh by set_solver.
  - unfold addFavoriteShow. by rewrite add_begin_fresh by set_solver.
  - by rewrite add_authenticated_no_error_toast.
  - unfold addFavoriteShow. rewrite add_begin_fresh; [done|].
    change (favoriteKey (id show42)) with "42-tv". simpl.
    rewrite elem_of_singleton. discriminate.
  - unfold addFavoriteShow. rewrite add_begin_fresh.
    + intros H%(f_equal favorites). vm_compute in H. discriminate H.
    + change (favoriteKey (id show42)) with "42-tv". simpl.
      rewrite elem_of_singleton. discriminate.
Qed.

(** C2: an authenticated remove takes a snapshot of the list and of the
    index before it touches them; when the delete fails, the list and the
    index are set back to that very snapshot, whatever the store held while
    the delete was in flight, and the failure is notified.  Every entry of
    the snapshot is back, those with another id included. *)
Theorem remove_failure_restores_snapshot u show a :
  ∃ a1 p,
    remove_begin (Some u) show a = (a1, Some p) ∧
    originalFavorites p = favorites (store a) ∧
    originalFavoritedMedia p = favoritedMedia (store a) ∧
    ∀ e mid,
      store (remove_settle p (Some e) mid) = store a ∧
      store (removeFavoriteShow (Some u) show (Some e) a) = store a ∧
      toasts (remove_settle p (Some e) mid) = toasts mid ++
        [toast_error ("Failed to remove " +:+ quoted show +:+ " from favorites.")].
Proof.
  eexists _, _. split; [reflexivity|]. split; [done|]. split; [done|].
  intros e mid. destruct a as [[favs idx] ts cs rs]. by split; [|split].
Qed.

(** C5, counterexample: two episodes of show 42 differ in season and
    episode, and the movie 42 differs in media type, yet all three get the
    key ["42-tv"]; removing the first episode takes the other two entries
    off the list and makes the membership test of id 42 false. *)
Lemma favoriteKey_same_id_collide :
  ¬ (∀ e1 e2 : Show,
       id e1 = id e2 →
       type e1 ≠ type e2 ∨ season_number e1 ≠ season_number e2 ∨
         episode_number e1 ≠ episode_number e2 →
       favoriteKey (id e1) ≠ favoriteKey (id e2)) ∧
  favoriteKey (id s1e1) = "42-tv" ∧ favoriteKey (id s2e3) = "42-tv" ∧
  favoriteKey (id movie42) = "42-tv" ∧
  let a := mkApp (mkState [s1e1; s2e3; movie42; show7] {["42-tv"; "7-tv"]})
             [] [] [] in
  let a' := removeFavoriteShow (Some alice) s1e1 None a in
  favorites (store a') = [show7] ∧ isShowFavorited (id s2e3) a' = false.
Proof.
  split; [|by vm_compute].
  intros H. apply (H s1e1 s2e3); [done|right; by left|done].
Qed.

(** C5, amended: the key is a function of the id alone and tells ids
    apart: two shows have the same key exactly when they have the same id,
    whatever their media type, season and episode. *)
Theorem favoriteKey_eq_iff (e1 e2 : Show) :
  favoriteKey (id e1) = favoriteKey (id e2) ↔ id e1 = id e2.
Proof. split; [apply favoriteKey_inj|by intros ->]. Qed.

(** C6: without an identity the add only emits the notice: the list, the
    index and the console are as before, no call is sent to the backend, and
    nothing is left pending. *)
Theorem add_unauthenticated show (error : option Error) a :
  snd (add_begin None show a) = None ∧
  store (addFavoriteShow None show error a) = store a ∧
  remote (addFavoriteShow None show error a) = remote a ∧
  console (addFavoriteShow None show error a) = console a ∧
  toasts (addFavoriteShow None show error a) =
    toasts a ++ [toast_error "You need to be logged in to save favorites."].
Proof. done. Qed.

(** C7: when the key of the entry is already in the index the add is a
    no-op: it changes neither the list, nor the index, nor the calls sent to
    the backend, and with an identity present, the precondition of an add,
    it changes nothing at all and emits no notification.  (Without an
    identity the store is likewise untouched and the add emits the notice of
    the unauthenticated add.) *)
Theorem add_present_noop (user : option User) show (error : option Error) a :
  favoriteKey (id show) ∈ favoritedMedia (store a) →
  store (addFavoriteShow user show error a) = store a ∧
  remote (addFavoriteShow user show error a) = remote a ∧
  (is_Some user → addFavoriteShow user show error a = a) ∧
  (user = None →
   toasts (addFavoriteShow user show error a) =
     toasts a ++ [toast_error "You need to be logged in to save favorites."]).
Proof.
  intros Hkey. unfold addFavoriteShow, add_begin.
  destruct user as [u|]; [rewrite decide_True by done|]; simpl.
  - by repeat split.
  - repeat split; [by intros [? [=]]].
Qed.

Lemma add_present_noop_witness :
  let a := mkApp (mkState [show42] {["42-tv"]}) [] [] [] in
  favoriteKey (id show42) ∈ favoritedMedia (store a) ∧
  addFavoriteShow (Some alice) show42 (Some boom) a = a.
Proof.
  assert (H : favoriteKey (id show42) ∈ ({["42-tv"]} : gset string)).
  { change (favoriteKey (id show42)) with "42-tv". by apply elem_of_singleton. }
  split; [exact H|].
  destruct (add_present_noop (Some alice) show42 (Some boom)
              (mkApp (mkState [show42] {["42-tv"]}) [] [] []) H)
    as (_ & _ & Hsame & _).
  apply Hsame. by exists alice.
Defined.

(** C9: the rollback of a failed add and the optimistic step of a remove
    keep exactly the entries whose id differs from the id of the show:
    every entry with that id goes, whatever its media type, season or
    episode, and every other entry stays. *)
Theorem rollback_and_remove_filter_by_id u show e a :
  (∀ p mid,
     favorites (store (add_settle p (Some e) mid)) =
       filter (λ f, id f ≠ add_showId p) (favorites (store mid)) ∧
     ∀ f, f ∈ favorites (store (add_settle p (Some e) mid)) ↔
          f ∈ favorites (store mid) ∧ id f ≠ add_showId p) ∧
  (favoriteKey (id show) ∉ favoritedMedia (store a) →
   favorites (store (addFavoriteShow (Some u) show (Some e) a)) =
     filter (λ f, id f ≠ id show) (favorites (store a))) ∧
  favorites (store (fst (remove_begin (Some u) show a))) =
    filter (λ f, id f ≠ id show) (favorites (store a)) ∧
  (∀ f, f ∈ favorites (store (fst (remove_begin (Some u) show a))) ↔
        f ∈ favorites (store a) ∧ id f ≠ id show).
Proof.
  split; [|split; [|split]].
  - intros p mid. split; [done|]. intros f. simpl.
    rewrite list_elem_of_filter. tauto.
  - intros Hkey. unfold addFavoriteShow. rewrite add_begin_fresh by done.
    simpl. by rewrite filter_cons_False by (simpl; tauto).
  - done.
  - intros f. simpl. rewrite list_elem_of_filter. tauto.
Qed.

Lemma rollback_and_remove_filter_by_id_witness :
  let a := mkApp (mkState [movie42; s2e3; show7] {["42-movie"; "7-tv"]})
             [] [] [] in
  (favoriteKey (id show42) ∉ favoritedMedia (store a)) ∧
  favorites (store (addFavoriteShow (Some alice) show42 (Some boom) a)) =
    filter (λ f, id f ≠ id show42) (favorites (store a)).
Proof.
  assert (H : favoriteKey (id show42) ∉ ({["42-movie"; "7-tv"]} : gset string)).
  { change (favoriteKey (id show42)) with "42-tv".
    rewrite elem_of_union, !elem_of_singleton. by intros [|]. }
  split; [exact H|].
  destruct (rollback_and_remove_filter_by_id alice show42 boom
              (mkApp (mkState [movie42; s2e3; show7] {["42-movie"; "7-tv"]})
                 [] [] [])) as (_ & Hadd & _ & _).
  exact (Hadd H).
Defined.

(** Of a movie 42, an episode of show 42 and show 7, the filter keeps
    show 7 alone. *)
Example rollback_drops_every_42 :
  filter (λ f, id f ≠ id show42) [movie42; s2e3; show7] = [show7].
Proof. reflexivity. Qed.

End FavoritesProperties.

(** ** The retrying fetcher *)

Section FetcherProperties.

Import History.

Variable World : Type.
Variable fetch : string → World → FetchOutcome * World.

Abbreviation St := (St World).
Abbreviation attempt := (attempt World fetch).
Abbreviation attempt_on := (attempt_on World fetch).
Abbreviation fetch_loop := (fetch_loop World fetch).
Abbreviation fetchWithRetry := (fetchWithRetry World fetch).
Abbreviation outcomes := (outcomes World fetch).
Abbreviation world_after := (world_after World fetch).

Implicit Types (s : St) (url : string) (n k : nat) (i maxRetries delay : Z).

Lemma attempts_snoc (tr : list Event) (ev : Event) :
  attempts (tr ++ [ev]) = (attempts tr + (if is_fetch ev then 1 else 0))%nat.
Proof.
  unfold attempts. rewrite filter_app, length_app. f_equal.
  destruct ev; reflexivity.
Qed.

(** One attempt is one request, and it leaves the world where the service
    put it. *)
Lemma attempt_run url s :
  attempt url s =
    (fst (attempt_on url (world s)),
     {| world := snd (attempt_on url (world s));
        trace := trace s ++ [ev_fetch url] |}).
Proof. unfold History.attempt. by destruct (attempt_on url (world s)). Qed.

Lemma outcomes_S url n (w : World) :
  outcomes url (S n) w =
    fst (attempt_on url w) :: outcomes url n (snd (attempt_on url w)).
Proof. simpl. by destruct (attempt_on url w). Qed.

(** The loop at its last index: a failure is thrown on. *)
Lemma fetch_loop_last url maxRetries delay n i s e :
  i = maxRetries - 1 →
  fst (attempt_on url (world s)) = Throw e →
  fst (fetch_loop url maxRetries delay (S n) i s) = Throw e ∧
  attempts (trace (snd (fetch_loop url maxRetries delay (S n) i s))) =
    S (attempts (trace s)) ∧
  world (snd (fetch_loop url maxRetries delay (S n) i s)) =
    snd (attempt_on url (world s)).
Proof.
  intros Hi He. simpl. rewrite attempt_run, He.
  unfold bind, emit, throw. simpl.
  rewrite (proj2 (Z.eqb_eq _ _) Hi). simpl.
  rewrite !attempts_snoc. simpl. split; [done|]. split; [lia|done].
Qed.

(** The loop before its last index: a failure is followed by the next
    iteration. *)
Lemma fetch_loop_retry url maxRetries delay n i s e :
  i ≠ maxRetries - 1 →
  fst (attempt_on url (world s)) = Throw e →
  fetch_loop url maxRetries delay (S n) i s =
    fetch_loop url maxRetries delay n (i + 1)
      {| world := snd (attempt_on url (world s));
         trace := trace s ++
           [ev_fetch url;
            ev_warn ("Fetch attempt " +:+ pretty (i + 1) +:+ " failed for " +:+
                     url +:+ ":") (message e);
            ev_sleep (delay * (i + 1))] |}.
Proof.
  intros Hi He. simpl. rewrite attempt_run, He.
  unfold bind, emit, throw. simpl.
  rewrite (proj2 (Z.eqb_neq _ _) Hi). simpl.
  by rewrite <-!app_assoc.
Qed.

Lemma fetch_loop_success url maxRetries delay n i s response :
  fst (attempt_on url (world s)) = Ok response →
  fetch_loop url maxRetries delay (S n) i s =
    (Ok (Some response),
     {| world := snd (attempt_on url (world s));
        trace := trace s ++ [ev_fetch url] |}).
Proof. intros He. simpl. by rewrite attempt_run, He. Qed.

Lemma attempts_retry_trace url (tr : list Event) (l d : string) (ms : Z) :
  attempts (tr ++ [ev_fetch url; ev_warn l d; ev_sleep ms]) = S (attempts tr).
Proof.
  unfold attempts. rewrite filter_app, length_app. simpl. lia.
Qed.

(** The loop never makes more requests than it has iterations left. *)
Lemma fetch_loop_attempts_le url maxRetries delay n i s :
  (attempts (trace (snd (fetch_loop url maxRetries delay n i s)))
   ≤ attempts (trace s) + n)%nat.
Proof.
  revert i s. induction n as [|n IH]; intros i s; [simpl; lia|].
  destruct (fst (attempt_on url (world s))) as [response|e] eqn:He.
  - rewrite (fetch_loop_success _ _ _ _ _ _ _ He). simpl.
    rewrite attempts_snoc. simpl. lia.
  - destruct (decide (i = maxRetries - 1)) as [Hi|Hi].
    + destruct (fetch_loop_last url maxRetries delay n i s e Hi He)
        as (_ & -> & _). lia.
    + rewrite (fetch_loop_retry _ _ _ _ _ _ _ Hi He).
      etrans; [apply IH|]. simpl. rewrite attempts_retry_trace. lia.
Qed.

(** The first success among the iterations left is returned at once. *)
Lemma fetch_loop_first_success url maxRetries delay k :
  ∀ n i s (fails : list (Res Response)) response,
    maxRetries = i + Z.of_nat n →
    (S k ≤ n)%nat →
    length fails = k →
    Forall is_failure fails →
    outcomes url (S k) (world s) = fails ++ [Ok response] →
    fst (fetch_loop url maxRetries delay n i s) = Ok (Some response) ∧
    attempts (trace (snd (fetch_loop url maxRetries delay n i s))) =
      (attempts (trace s) + S k)%nat ∧
    world (snd (fetch_loop url maxRetries delay n i s)) =
      world_after url (S k) (world s).
Proof.
  induction k as [|k IH]; intros n i s fails response Hmax Hn Hlen Hfail Hout.
  - destruct fails; [|done]. destruct n as [|n]; [lia|].
    rewrite outcomes_S in Hout. injection Hout as Hout.
    rewrite (fetch_loop_success _ _ _ _ _ _ _ Hout). simpl.
    rewrite attempts_snoc. simpl. done.
  - destruct fails as [|r fails]; [done|]. destruct n as [|n]; [lia|].
    rewrite outcomes_S in Hout. injection Hout as Hr Hout.
    apply Forall_cons in Hfail as [Hr' Hfail].
    destruct r as [?|e]; [done|].
    rewrite (fetch_loop_retry _ _ _ _ _ _ e) by (done || lia).
    edestruct (IH n (i + 1)) as (-> & -> & ->); [lia|lia| |done|exact Hout|].
    { simpl in Hlen. lia. }
    simpl. rewrite attempts_retry_trace. split; [done|]. split; [lia|done].
Qed.

(** When every iteration left fails, the last failure is thrown. *)
Lemma fetch_loop_exhausted url maxRetries delay n :
  ∀ i s (fails : list (Res Response)) e,
    maxRetries = i + Z.of_nat (S n) →
    Forall is_failure fails →
    outcomes url (S n) (world s) = fails ++ [Throw e] →
    fst (fetch_loop url maxRetries delay (S n) i s) = Throw e ∧
    attempts (trace (snd (fetch_loop url maxRetries delay (S n) i s))) =
      (attempts (trace s) + S n)%nat.
Proof.
  induction n as [|n IH]; intros i s fails e Hmax Hfail Hout.
  - rewrite outcomes_S in Hout. simpl in Hout.
    destruct fails as [|r fails]; simpl in Hout;
      [|injection Hout as _ Hout; by destruct fails].
    injection Hout as Hout.
    destruct (fetch_loop_last url maxRetries delay 0 i s e) as (-> & -> & _);
      [lia|done|]. split; [done|lia].
  - rewrite outcomes_S in Hout.
    destruct fails as [|r fails].
    { injection Hout as _ Hout. revert Hout.
      by destruct (attempt_on url (snd (attempt_on url (world s)))). }
    injection Hout as Hr Hout.
    apply Forall_cons in Hfail as [Hr' Hfail].
    destruct r as [?|e']; [done|].
    rewrite (fetch_loop_retry _ _ _ _ _ _ e') by (done || lia).
    edestruct (IH (i + 1)) as (-> & ->); [lia|done|exact Hout|].
    simpl. rewrite attempts_retry_trace. split; [done|lia].
Qed.

(** C10: with [maxRetries] at most [0] the loop body never runs: the call
    returns [undefined] without throwing, and it leaves the world and the
    trace as they were, so no request was sent and nothing was logged. *)
Theorem fetchWithRetry_no_retries url maxRetries delay s :
  maxRetries ≤ 0 →
  fetchWithRetry url maxRetries delay s = (Ok None, s).
Proof.
  intros H. unfold History.fetchWithRetry.
  by replace (Z.to_nat maxRetries) with 0%nat by lia.
Qed.

(** C4: a call makes at most [maxRetries] requests.  When the service
    fails [k] times and then answers, with [k + 1] within [maxRetries], the
    call returns that answer after exactly [k + 1] requests and leaves the
    world as the last of them left it.  When the service fails [maxRetries]
    times, the call throws the last of these failures after exactly
    [maxRetries] requests. *)
Theorem fetchWithRetry_bounded url maxRetries delay s :
  let out := fetchWithRetry url maxRetries delay s in
  (attempts (trace (snd out)) ≤ attempts (trace s) + Z.to_nat maxRetries)%nat ∧
  (∀ k (fails : list (Res Response)) response,
     Z.of_nat (S k) ≤ maxRetries →
     length fails = k →
     Forall is_failure fails →
     outcomes url (S k) (world s) = fails ++ [Ok response] →
     fst out = Ok (Some response) ∧
     attempts (trace (snd out)) = (attempts (trace s) + S k)%nat ∧
     world (snd out) = world_after url (S k) (world s)) ∧
  (∀ (fails : list (Res Response)) e,
     0 < maxRetries →
     Forall is_failure fails →
     outcomes url (Z.to_nat maxRetries) (world s) = fails ++ [Throw e] →
     fst out = Throw e ∧
     Z.of_nat (attempts (trace (snd out))) =
       Z.of_nat (attempts (trace s)) + maxRetries).
Proof.
  cbv zeta. unfold History.fetchWithRetry. split; [|split].
  - apply fetch_loop_attempts_le.
  - intros k fails response Hk Hlen Hfail Hout.
    by apply (fetch_loop_first_success url maxRetries delay k _ 0 s fails);
      [lia|lia|..].
  - intros fails e Hpos Hfail Hout.
    destruct (Z.to_nat maxRetries) as [|n] eqn:Hn; [lia|].
    destruct (fetch_loop_exhausted url maxRetries delay n 0 s fails e)
      as [-> ->]; [lia|done..|]. split; [done|lia].
Qed.

End FetcherProperties.

(** ** The callbacks on the event loop *)

Section EventLoop.

Import History.

Variable World : Type.
Variable fetch : string → World → FetchOutcome * World.

Abbreviation St := (St World).
Abbreviation run := (run World fetch).
Abbreviation fetch_loop := (fetch_loop World fetch).
Abbreviation fetchWithRetry := (fetchWithRetry World fetch).
Abbreviation enrich := (enrich World fetch).
Abbreviation advance_task := (advance_task World fetch).
Abbreviation advance := (advance World fetch).
Abbreviation start_all := (start_all World fetch).
Abbreviation resume := (resume World fetch).
Abbreviation follow := (follow World fetch).
Abbreviation finish_task := (finish_task World fetch).
Abbreviation finish_all := (finish_all World fetch).
Abbreviation settle_all := (settle_all World fetch).

Implicit Types (s : St) (url : string) (os got new : list FetchOutcome).

(** *** Run alone, a task is the function of the same name *)

Lemma run_and_then {A B} (t : Task A) (k : A → Task B) :
  ∀ s, run (and_then t k) s = bind World (run t) (λ a, run (k a)) s.
Proof.
  unfold bind.
  induction t as [[a|e]|l d t IH|l e' t IH|ms t IH|url t IH]; intros s; simpl;
    try done.
  destruct (fetch url (world s)) as [o w']. apply IH.
Qed.

Lemma run_catch {A} (t : Task A) (handler : Error → Task A) :
  ∀ s, run (catch t handler) s =
       try_catch World (run t) (λ e, run (handler e)) s.
Proof.
  unfold try_catch.
  induction t as [[a|e]|l d t IH|l e' t IH|ms t IH|url t IH]; intros s; simpl;
    try done.
  destruct (fetch url (world s)) as [o w']. apply IH.
Qed.

Lemma run_fetch_loop_task url maxRetries delay n :
  ∀ i s, run (fetch_loop_task url maxRetries delay n i) s =
         fetch_loop url maxRetries delay n i s.
Proof.
  induction n as [|n IH]; intros i s; [done|].
  simpl. unfold attempt, attempt_on, bind, emit, throw.
  destruct (fetch url (world s)) as [o w'].
  destruct (check_ok (race o)) as [response|error]; [done|]. simpl.
  destruct (i =? maxRetries - 1); [done|]. simpl. apply IH.
Qed.

Lemma run_fetchWithRetry_task url maxRetries delay s :
  run (fetchWithRetry_task url maxRetries delay) s =
  fetchWithRetry url maxRetries delay s.
Proof. apply run_fetch_loop_task. Qed.

Ltac run_step :=
  first
    [ progress cbn [History.run]
    | rewrite run_catch
    | rewrite run_and_then
    | rewrite run_fetchWithRetry_task
    | progress unfold try_catch, bind, ret, throw, emit, response_json, deref,
        response_json_task, deref_task
    | match goal with
      | |- context [History.fetchWithRetry World fetch ?u 3 1000 ?s] =>
          destruct (History.fetchWithRetry World fetch u 3 1000 s)
            as [[[?|]|?] ?]
      | |- context [body ?r] => destruct (body r) as [[?|]|]
      | |- context [is_episode ?i] => destruct (is_episode i)
      end ].

(** The callback of a row run alone is [enrich]. *)
Lemma run_enrich_task (item : RawItem) s :
  run (enrich_task item) s = enrich item s.
Proof. unfold enrich_task, History.enrich. repeat run_step; done. Qed.

(** *** What the event loop keeps of each task *)

Lemma Forall2_insert_r {X Y} (P : X → Y → Prop) (l : list X) (k : list Y)
    (i : nat) (y : Y) :
  Forall2 P l k → (∀ x, l !! i = Some x → P x y) → Forall2 P l (<[i:=y]> k).
Proof.
  intros H. revert i. induction H as [|x y' l k Hxy H IH]; intros i Hi.
  - constructor.
  - destruct i as [|i]; simpl; constructor; auto.
Qed.

Lemma sum_list_with_insert {Y} (f : Y → nat) (k : list Y) (i : nat) (x y : Y) :
  k !! i = Some x →
  (sum_list_with f (<[i:=y]> k) + f x = sum_list_with f k + f y)%nat.
Proof.
  revert i. induction k as [|z k IH]; intros i Hi; [done|].
  destruct i as [|i]; simpl in *.
  - injection Hi as ->. lia.
  - specialize (IH i Hi). lia.
Qed.

Section Replay.

(** A property of every answer of the service. *)
Variable Q : FetchOutcome → Prop.
Hypothesis service_Q : ∀ url (w : World), Q (fst (fetch url w)).

Lemma advance_task_spec {A} (t : Task A) :
  ∀ got s,
    ∃ new,
      answers (fst (advance_task got t s)) = got ++ new ∧
      Forall Q new ∧
      attempts (trace (snd (advance_task got t s))) =
        (attempts (trace s) + length new)%nat ∧
      ∀ os, feed t (new ++ os) = feed (rest (fst (advance_task got t s))) os.
Proof.
  induction t as [r|l d t IH|l e t IH|ms t IH|url t IH]; intros got s; simpl.
  - exists []. rewrite app_nil_r. split; [done|]. split; [done|].
    split; [simpl; lia|done].
  - destruct (IH got {| world := world s;
                        trace := trace s ++ [ev_warn l d] |})
      as (new & Hans & HQ & Hatt & Hfeed).
    exists new. split; [done|]. split; [done|]. split; [|done].
    rewrite Hatt. simpl. rewrite attempts_snoc. simpl. lia.
  - destruct (IH got {| world := world s;
                        trace := trace s ++ [ev_error l e] |})
      as (new & Hans & HQ & Hatt & Hfeed).
    exists new. split; [done|]. split; [done|]. split; [|done].
    rewrite Hatt. simpl. rewrite attempts_snoc. simpl. lia.
  - exists []. rewrite app_nil_r. split; [done|]. split; [done|].
    split; [|done]. rewrite attempts_snoc. simpl. lia.
  - pose proof (service_Q url (world s)) as Ho.
    destruct (fetch url (world s)) as [o w']. simpl in *.
    exists [o]. split; [done|]. split; [by constructor|].
    split; [|done]. rewrite attempts_snoc. simpl. lia.
Qed.

Lemma finish_task_spec {A} (t : Task A) :
  ∀ got s,
    ∃ new,
      fst (fst (finish_task got t s)) = got ++ new ∧
      Forall Q new ∧
      attempts (trace (snd (finish_task got t s))) =
        (attempts (trace s) + length new)%nat ∧
      feed t new = Some (snd (fst (finish_task got t s))).
Proof.
  induction t as [r|l d t IH|l e t IH|ms t IH|url t IH]; intros got s; simpl.
  - exists []. rewrite app_nil_r. split; [done|]. split; [done|].
    split; [simpl; lia|done].
  - destruct (IH got {| world := world s;
                        trace := trace s ++ [ev_warn l d] |})
      as (new & Hans & HQ & Hatt & Hfeed).
    exists new. split; [done|]. split; [done|]. split; [|done].
    rewrite Hatt. simpl. rewrite attempts_snoc. simpl. lia.
  - destruct (IH got {| world := world s;
                        trace := trace s ++ [ev_error l e] |})
      as (new & Hans & HQ & Hatt & Hfeed).
    exists new. split; [done|]. split; [done|]. split; [|done].
    rewrite Hatt. simpl. rewrite attempts_snoc. simpl. lia.
  - destruct (IH got {| world := world s;
                        trace := trace s ++ [ev_sleep ms] |})
      as (new & Hans & HQ & Hatt & Hfeed).
    exists new. split; [done|]. split; [done|]. split; [|done].
    rewrite Hatt. simpl. rewrite attempts_snoc. simpl. lia.
  - pose proof (service_Q url (world s)) as Ho.
    destruct (fetch url (world s)) as [o w']. simpl in *.
    destruct (IH o (got ++ [o])
                {| world := w'; trace := trace s ++ [ev_fetch url] |})
      as (new & Hans & HQ & Hatt & Hfeed).
    exists (o :: new). split; [by rewrite Hans, <-app_assoc|].
    split; [by constructor|]. split; [|done].
    rewrite Hatt. simpl. rewrite attempts_snoc. simpl. lia.
Qed.

Lemma advance_tracks {A} (t : Task A) (j : Job A) s :
  tracks Q t j →
  tracks Q t (fst (advance j s)) ∧
  (attempts (trace (snd (advance j s))) + length (answers j) =
   attempts (trace s) + length (answers (fst (advance j s))))%nat.
Proof.
  intros [Hfeed HQ]. unfold History.advance.
  destruct (advance_task_spec (rest j) (answers j) s)
    as (new & Hans & HQnew & Hatt & Hnew).
  split; [split|].
  - intros os. rewrite Hans, <-app_assoc, Hfeed. apply Hnew.
  - rewrite Hans. by apply Forall_app.
  - rewrite Hatt, Hans, length_app. lia.
Qed.

Lemma start_all_spec {A} (ts : list (Task A)) :
  ∀ s,
    Forall2 (tracks Q) ts (fst (start_all ts s)) ∧
    attempts (trace (snd (start_all ts s))) =
      (attempts (trace s) + sent (fst (start_all ts s)))%nat.
Proof.
  induction ts as [|t ts IH]; intros s; simpl.
  - split; [constructor|]. unfold sent. simpl. lia.
  - destruct (advance_tracks t (mkJob [] t) s) as [Htr Hatt]; [by split|].
    destruct (advance (mkJob [] t) s) as [j s1]. simpl in *.
    destruct (IH s1) as [Hall Hatt'].
    destruct (start_all ts s1) as [js s2]. simpl in *.
    split; [by constructor|]. unfold sent in *. simpl. lia.
Qed.

Lemma resume_spec {A} (ts : list (Task A)) (pool : list (Job A)) (i : nat) s :
  Forall2 (tracks Q) ts pool →
  Forall2 (tracks Q) ts (fst (resume i pool s)) ∧
  (attempts (trace (snd (resume i pool s))) + sent pool =
   attempts (trace s) + sent (fst (resume i pool s)))%nat.
Proof.
  intros Hall. unfold History.resume.
  destruct (pool !! i) as [j|] eqn:Hi; [|by split].
  destruct (Forall2_lookup_r _ _ _ _ _ Hall Hi) as (t & Ht & Htj).
  destruct (advance_tracks t j s Htj) as [Htr Hatt].
  destruct (advance j s) as [j' s']. simpl in *. split.
  - apply Forall2_insert_r; [done|]. intros t' Ht'. congruence.
  - unfold sent.
    pose proof (sum_list_with_insert (λ j, length (answers j)) pool i j j' Hi).
    simpl in *. lia.
Qed.

Lemma follow_spec {A} (ts : list (Task A)) (schedule : list nat) :
  ∀ (pool : list (Job A)) s,
    Forall2 (tracks Q) ts pool →
    Forall2 (tracks Q) ts (fst (follow schedule pool s)) ∧
    (attempts (trace (snd (follow schedule pool s))) + sent pool =
     attempts (trace s) + sent (fst (follow schedule pool s)))%nat.
Proof.
  induction schedule as [|i schedule IH]; intros pool s Hall; simpl.
  - split; [done|lia].
  - destruct (resume_spec ts pool i s Hall) as [Hall' Hatt].
    destruct (resume i pool s) as [pool' s']. simpl in *.
    destruct (IH pool' s' Hall') as [Hall'' Hatt'].
    split; [done|lia].
Qed.

Lemma finish_all_spec {A} (ts : list (Task A)) :
  ∀ (pool : list (Job A)) s,
    Forall2 (tracks Q) ts pool →
    Forall2 (replayed Q) ts (fst (finish_all pool s)) ∧
    (attempts (trace (snd (finish_all pool s))) + sent pool =
     attempts (trace s) +
     sum_list_with (λ f, length (fst f)) (fst (finish_all pool s)))%nat.
Proof.
  induction ts as [|t ts IH]; intros pool s Hall.
  - apply Forall2_nil_inv_l in Hall as ->. simpl. split; [constructor|].
    unfold sent. simpl. lia.
  - apply Forall2_cons_inv_l in Hall as (j & pool' & [Hfeed HQ] & Hall & ->).
    simpl.
    destruct (finish_task_spec (rest j) (answers j) s)
      as (new & Hans & HQnew & Hatt & Hnew).
    destruct (finish_task (answers j) (rest j) s) as [[got r] s1]. simpl in *.
    destruct (IH pool' s1 Hall) as [Hall' Hatt'].
    destruct (finish_all pool' s1) as [fs s2]. simpl in *. split.
    + constructor; [|done]. split; simpl.
      * rewrite Hans, Hfeed. done.
      * rewrite Hans. by apply Forall_app.
    + unfold sent in *. simpl. rewrite Hans, length_app. lia.
Qed.

(** The tasks on the event loop: whatever the schedule, each task settles
    to what it settles to when fed the answers its own requests got, and the
    requests sent are those answers, one each. *)
Lemma settle_all_spec {A} (ts : list (Task A)) (schedule : list nat) s :
  Forall2 (replayed Q) ts (fst (settle_all ts schedule s)) ∧
  attempts (trace (snd (settle_all ts schedule s))) =
    (attempts (trace s) +
     sum_list_with (λ f, length (fst f)) (fst (settle_all ts schedule s)))%nat.
Proof.
  unfold History.settle_all.
  destruct (start_all_spec ts s) as [H1 A1].
  destruct (start_all ts s) as [pool s1]. simpl in *.
  destruct (follow_spec ts schedule pool s1 H1) as [H2 A2].
  destruct (follow schedule pool s1) as [pool' s2]. simpl in *.
  destruct (finish_all_spec ts pool' s2 H2) as [H3 A3].
  split; [done|lia].
Qed.

End Replay.

(** *** What a callback settles to, by the answers it got *)

Lemma feed_done {A} (r r' : Res A) os :
  feed (Done r) os = Some r' → os = [] ∧ r' = r.
Proof. destruct os; [|done]. by intros [= ->]. Qed.

Lemma feed_and_then {A B} (t : Task A) (k : A → Task B) :
  ∀ os r,
    feed (and_then t k) os = Some r →
    ∃ os1 os2 r1,
      os = os1 ++ os2 ∧ feed t os1 = Some r1 ∧
      match r1 with
      | Ok a => feed (k a) os2 = Some r
      | Throw e => os2 = [] ∧ r = Throw e
      end.
Proof.
  induction t as [[a|e]|l d t IH|l e t IH|ms t IH|url t IH]; intros os r H;
    simpl in H.
  - by exists [], os, (Ok a).
  - apply feed_done in H as [-> ->]. by exists [], [], (Throw e).
  - destruct (IH os r H) as (os1 & os2 & r1 & ? & ? & ?). by exists os1, os2, r1.
  - destruct (IH os r H) as (os1 & os2 & r1 & ? & ? & ?). by exists os1, os2, r1.
  - destruct (IH os r H) as (os1 & os2 & r1 & ? & ? & ?). by exists os1, os2, r1.
  - destruct os as [|o os]; [done|].
    destruct (IH o os r H) as (os1 & os2 & r1 & -> & ? & ?).
    by exists (o :: os1), os2, r1.
Qed.

Lemma feed_catch {A} (t : Task A) (handler : Error → Task A) :
  ∀ os r,
    feed (catch t handler) os = Some r →
    ∃ os1 os2 r1,
      os = os1 ++ os2 ∧ feed t os1 = Some r1 ∧
      match r1 with
      | Ok a => os2 = [] ∧ r = Ok a
      | Throw e => feed (handler e) os2 = Some r
      end.
Proof.
  induction t as [[a|e]|l d t IH|l e t IH|ms t IH|url t IH]; intros os r H;
    simpl in H.
  - apply feed_done in H as [-> ->]. by exists [], [], (Ok a).
  - by exists [], os, (Throw e).
  - destruct (IH os r H) as (os1 & os2 & r1 & ? & ? & ?). by exists os1, os2, r1.
  - destruct (IH os r H) as (os1 & os2 & r1 & ? & ? & ?). by exists os1, os2, r1.
  - destruct (IH os r H) as (os1 & os2 & r1 & ? & ? & ?). by exists os1, os2, r1.
  - destruct os as [|o os]; [done|].
    destruct (IH o os r H) as (os1 & os2 & r1 & -> & ? & ?).
    by exists (o :: os1), os2, r1.
Qed.

(** The loop fed its answers: it uses at most one answer for each
    iteration; a response it returns is the good answer among them; when it
    throws, every answer was a failure. *)
Lemma feed_fetch_loop_task url maxRetries delay n :
  ∀ i os r,
    maxRetries = i + Z.of_nat n →
    feed (fetch_loop_task url maxRetries delay n i) os = Some r →
    (length os ≤ n)%nat ∧
    match r with
    | Ok None => n = 0%nat
    | Ok (Some response) => ∃ o, o ∈ os ∧ check_ok (race o) = Ok response
    | Throw e => Forall failed os
    end.
Proof.
  induction n as [|n IH]; intros i os r Hmax H; simpl in H.
  { apply feed_done in H as [-> ->]. by split. }
  destruct os as [|o os]; [done|].
  destruct (check_ok (race o)) as [response|error] eqn:Ho; simpl in H.
  - apply feed_done in H as [-> ->]. split; [simpl; lia|].
    exists o. split; [by left|done].
  - assert (Hfail : failed o) by (unfold failed; by rewrite Ho).
    destruct (i =? maxRetries - 1) eqn:Hi; simpl in H.
    + apply feed_done in H as [-> ->]. split; [simpl; lia|]. by constructor.
    + apply Z.eqb_neq in Hi.
      destruct (IH (i + 1) os r) as [Hlen Hr]; [lia|done|].
      split; [simpl; lia|].
      destruct r as [[response|]|e].
      * destruct Hr as (o' & Ho' & Hok). exists o'. split; [by right|done].
      * lia.
      * by constructor.
Qed.

Lemma feed_fetchWithRetry_task url os r :
  feed (fetchWithRetry_task url 3 1000) os = Some r →
  (length os ≤ 3)%nat ∧
  match r with
  | Ok None => False
  | Ok (Some response) => ∃ o, o ∈ os ∧ check_ok (race o) = Ok response
  | Throw e => Forall failed os
  end.
Proof.
  intros H. apply (feed_fetch_loop_task url 3 1000 3 0) in H as [Hlen Hr];
    [|done].
  split; [done|]. by destruct r as [[?|]|?].
Qed.

(** The callback of a row fed its answers: it returns an entry, never
    throws, uses at most three answers, six for an episode, and the entry
    is the placeholder or is built from bodies the answers carried. *)
Lemma feed_enrich_task (item : RawItem) os r :
  feed (enrich_task item) os = Some r →
  ∃ v, r = Ok v ∧
       (length os ≤ if is_episode item then 6 else 3)%nat ∧
       (v = placeholder item ∨ loaded_from item os v).
Proof.
  unfold enrich_task. intros H.
  apply feed_catch in H as (os1 & os2 & r1 & -> & H & Hr).
  apply feed_and_then in H as (osA & osB & rA & -> & HA & H).
  apply feed_fetchWithRetry_task in HA as [HlenA HrA].
  assert (Hbound : (3 ≤ if is_episode item then 6 else 3)%nat)
    by (destruct (is_episode item); lia).
  destruct rA as [[response|]|e]; [|done|].
  2: { destruct H as [-> ->]. cbn [feed] in Hr. apply feed_done in Hr as [-> ->].
       exists (placeholder item). rewrite !app_nil_r.
       split; [done|]. split; [lia|by left]. }
  destruct HrA as (o & Ho & Hok).
  unfold response_json_task in H.
  destruct (body response) as [[details|]|] eqn:Hbody;
    cbn [and_then deref_task] in H.
  2, 3: apply feed_done in H as [-> ->]; cbn [feed] in Hr;
        apply feed_done in Hr as [-> ->];
        exists (placeholder item); rewrite !app_nil_r;
        (split; [done|]); (split; [lia|by left]).
  destruct (is_episode item) eqn:Hep.
  - apply feed_catch in H as (os3 & os4 & r3 & -> & H & Hr3).
    apply feed_and_then in H as (osC & osD & rC & -> & HC & H).
    apply feed_fetchWithRetry_task in HC as [HlenC HrC].
    assert (Hin : ∀ x, x ∈ osA → x ∈ (osA ++ ((osC ++ osD) ++ os4)) ++ os2)
      by (intros x ?; rewrite !elem_of_app; tauto).
    assert (Hin2 : ∀ x, x ∈ osC → x ∈ (osA ++ ((osC ++ osD) ++ os4)) ++ os2)
      by (intros x ?; rewrite !elem_of_app; tauto).
    destruct rC as [[response2|]|e2]; [|done|].
    + destruct HrC as (o2 & Ho2 & Hok2).
      unfold response_json_task in H.
      destruct (body response2) as [[episodeDetails|]|] eqn:Hbody2;
        cbn [and_then deref_task] in H.
      * apply feed_done in H as [-> ->]. destruct Hr3 as [-> ->].
        destruct Hr as [-> ->].
        eexists. split; [done|]. rewrite !app_nil_r, length_app.
        split; [lia|]. right. exists o, response, details.
        rewrite !app_nil_r in Hin, Hin2.
        split; [by apply Hin|]. split; [done|]. split; [done|].
        right. split; [done|]. exists o2, response2, episodeDetails.
        split; [by apply Hin2|]. done.
      * apply feed_done in H as [-> ->]. cbn [feed] in Hr3.
        apply feed_done in Hr3 as [-> ->]. destruct Hr as [-> ->].
        eexists. split; [done|]. rewrite !app_nil_r, length_app.
        split; [lia|]. right. exists o, response, details.
        rewrite !app_nil_r in Hin.
        split; [by apply Hin|]. split; [done|]. split; [done|]. by left.
      * apply feed_done in H as [-> ->]. cbn [feed] in Hr3.
        apply feed_done in Hr3 as [-> ->]. destruct Hr as [-> ->].
        eexists. split; [done|]. rewrite !app_nil_r, length_app.
        split; [lia|]. right. exists o, response, details.
        rewrite !app_nil_r in Hin.
        split; [by apply Hin|]. split; [done|]. split; [done|]. by left.
    + destruct H as [-> ->]. cbn [feed] in Hr3.
      apply feed_done in Hr3 as [-> ->]. destruct Hr as [-> ->].
      eexists. split; [done|]. rewrite !app_nil_r, length_app.
      split; [lia|]. right. exists o, response, details.
      rewrite !app_nil_r in Hin.
      split; [by apply Hin|]. split; [done|]. split; [done|]. by left.
  - apply feed_done in H as [-> ->]. destruct Hr as [-> ->].
    eexists. split; [done|]. rewrite !app_nil_r.
    split; [lia|]. right. exists o, response, details.
    split; [done|]. split; [done|]. split; [done|]. by left.
Qed.

(** *** The enriched history *)

Abbreviation enrichHistory := (enrichHistory World fetch).
Abbreviation fetchHistory := (fetchHistory World fetch).
Abbreviation answers_received := (answers_received World fetch).

Implicit Types (item : RawItem) (historyData rows : list RawItem)
  (schedule : list nat).

Lemma placeholder_stands_for item : stands_for item (placeholder item).
Proof. done. Qed.

Lemma loaded_from_stands_for item os v : loaded_from item os v → stands_for item v.
Proof.
  intros (o & response & details & _ & _ & _ & [->|(_ & ? & ? & ? & _ & _ & _ & ->)]);
    done.
Qed.

Section Entries.

Variable Q : FetchOutcome → Prop.
Hypothesis service_Q : ∀ url (w : World), Q (fst (fetch url w)).

Lemma entries_of_finals rows
    (finals : list (list FetchOutcome * Res HistoryItem)) :
  Forall2 (λ item f, replayed Q (enrich_task item) f) rows finals →
  ∃ out,
    omap successful (map (λ f, settled (snd f)) finals) = out ∧
    length out = length rows ∧
    ∀ i item, rows !! i = Some item →
      ∃ f o, finals !! i = Some f ∧ out !! i = Some o ∧
        feed (enrich_task item) (fst f) = Some (Ok o) ∧ Forall Q (fst f).
Proof.
  induction 1 as [|item f rows finals [Hfeed HQ] Hall (out & Hout & Hlen & Hat)].
  - exists []. by repeat split.
  - destruct (feed_enrich_task item (fst f) (snd f) Hfeed) as (v & Hv & _).
    exists (v :: out). simpl. rewrite Hv. simpl.
    split; [f_equal; exact Hout|]. split; [by rewrite Hlen|].
    intros [|i] item' Hi; simpl in *.
    + injection Hi as <-. exists f, v. repeat split; try done.
      by rewrite <-Hv.
    + by apply Hat.
Qed.

Lemma enrichHistory_entries rows schedule s :
  length (fst (enrichHistory rows schedule s)) = length rows ∧
  ∀ i item, rows !! i = Some item →
    ∃ got o,
      answers_received (map enrich_task rows) schedule s !! i = Some got ∧
      fst (enrichHistory rows schedule s) !! i = Some o ∧
      feed (enrich_task item) got = Some (Ok o) ∧ Forall Q got.
Proof.
  unfold History.enrichHistory, History.allSettled, History.answers_received.
  destruct (settle_all_spec Q service_Q (map enrich_task rows) schedule s)
    as [Hall _].
  destruct (settle_all (map enrich_task rows) schedule s) as [finals s'].
  simpl in *.
  change (map enrich_task rows) with (enrich_task <$> rows) in Hall.
  rewrite Forall2_fmap_l in Hall.
  destruct (entries_of_finals rows finals Hall) as (out & -> & Hlen & Hat).
  split; [done|]. intros i item Hi.
  destruct (Hat i item Hi) as (f & o & Hf & Ho & Hfeed & HQ).
  exists (fst f), o. rewrite list_lookup_fmap, Hf. done.
Qed.

End Entries.

Lemma enrichHistory_stands_for rows schedule s :
  Forall2 stands_for rows (fst (enrichHistory rows schedule s)).
Proof.
  destruct (enrichHistory_entries (λ _, True) (λ _ _, I) rows schedule s)
    as [Hlen Hat].
  apply Forall2_same_length_lookup. split; [done|].
  intros i item o Hi Ho.
  destruct (Hat i item Hi) as (got & o' & _ & Ho' & Hfeed & _).
  assert (o' = o) as -> by congruence.
  destruct (feed_enrich_task item got _ Hfeed) as (v & [= <-] & _ & [->|Hl]).
  - apply placeholder_stands_for.
  - by eapply loaded_from_stands_for.
Qed.

(** With a user, a working connection and the rows at hand, the page shows
    one entry per row. *)
Lemma fetchHistory_length (u : User) historyData schedule (p : Page) s :
  length (page_history
            (fst (fetchHistory (Some u) (Ok true) (Ok (Some historyData))
                    schedule p s)))
  = length historyData.
Proof.
  destruct historyData as [|item l]; [done|].
  unfold History.fetchHistory.
  match goal with
  | |- context [History.enrichHistory World fetch ?l ?sch ?s1] =>
      pose proof (Forall2_length _ _ _ (enrichHistory_stands_for l sch s1))
        as Hlen;
      destruct (History.enrichHistory World fetch l sch s1) as [out s2]
  end.
  by simpl in *.
Qed.

(** All the answers a callback got were failures: its entry is the
    placeholder. *)
Lemma feed_enrich_task_failed item os v :
  feed (enrich_task item) os = Some (Ok v) → Forall failed os →
  v = placeholder item.
Proof.
  intros Hfeed Hfail.
  destruct (feed_enrich_task item os _ Hfeed)
    as (v' & [= <-] & _ & [->|(o & response & _ & Ho & Hok & _)]); [done|].
  rewrite Forall_forall in Hfail. specialize (Hfail o Ho).
  unfold failed in Hfail. by rewrite Hok in Hfail.
Qed.

(** C3: whatever the order in which the answers of the service arrive,
    the enrichment of [N] rows returns [N] entries, the entry at each
    position standing for the row at that position, and these are the
    entries the page shows.  A row whose requests all failed, the retries
    included, gives the placeholder at its position: an entry with
    [_failed_to_load] set and the title ["Unknown TV Show"] or
    ["Unknown Movie"]. *)
Theorem enrichHistory_one_per_record historyData schedule s :
  length (fst (enrichHistory historyData schedule s)) = length historyData ∧
  Forall2 stands_for historyData (fst (enrichHistory historyData schedule s)) ∧
  (∀ (u : User) (p : Page),
     length (page_history
               (fst (fetchHistory (Some u) (Ok true) (Ok (Some historyData))
                       schedule p s)))
     = length historyData) ∧
  length (answers_received (map enrich_task historyData) schedule s)
    = length historyData ∧
  (∀ i item got,
     historyData !! i = Some item →
     answers_received (map enrich_task historyData) schedule s !! i = Some got →
     Forall failed got →
     fst (enrichHistory historyData schedule s) !! i = Some (placeholder item) ∧
     _failed_to_load (placeholder item) = true ∧
     title (placeholder item) =
       Some (if decide (item_media_type item = "tv")
             then "Unknown TV Show" else "Unknown Movie")).
Proof.
  pose proof (enrichHistory_stands_for historyData schedule s) as Hall.
  destruct (enrichHistory_entries (λ _, True) (λ _ _, I) historyData schedule s)
    as [Hlen Hat].
  split; [done|]. split; [done|].
  split; [intros u p; apply fetchHistory_length|]. split.
  - unfold History.answers_received. rewrite length_fmap.
    destruct (settle_all_spec (λ _, True) (λ _ _, I)
                (map enrich_task historyData) schedule s) as [H _].
    apply Forall2_length in H. by rewrite length_fmap in H.
  - intros i item got Hi Hgot Hfail. split; [|done].
    destruct (Hat i item Hi) as (got' & o & Hgot' & Ho & Hfeed & _).
    assert (got' = got) as -> by congruence.
    by rewrite Ho, (feed_enrich_task_failed item got o Hfeed Hfail).
Qed.

End EventLoop.

(** ** Deleting a history entry *)

Section DeleteProperties.

Import History.

Variables Remote Store : Type.
Variable deleteWatchItem : HistoryItem → Remote → option Error * Remote.
Variable removeContinueWatchingItem : Z → Store → Store.
Variable fetchContinueWatching : Remote → Store → option Error * Store.

Abbreviation handleDelete :=
  (handleDelete Remote Store deleteWatchItem removeContinueWatchingItem
     fetchContinueWatching).

(** C8: when the delete of an entry fails, [handleDelete] leaves the
    displayed history as the optimistic step made it: every entry with the
    watch id of the entry is gone and none is put back; the failure only
    goes to the console, and the backend is left as the failed call left
    it. *)
Theorem handleDelete_failure_not_restored
    (itemToDelete : HistoryItem) (v : View Remote Store) (e : Error)
    (remote' : Remote) :
  deleteWatchItem itemToDelete (remote v) = (Some e, remote') →
  history (handleDelete itemToDelete v) =
    filter (λ item, watch_id item ≠ watch_id itemToDelete) (history v) ∧
  (∀ item, item ∈ history (handleDelete itemToDelete v) →
           watch_id item ≠ watch_id itemToDelete) ∧
  (itemToDelete ∉ history (handleDelete itemToDelete v)) ∧
  remote (handleDelete itemToDelete v) = remote' ∧
  store (handleDelete itemToDelete v) =
    removeContinueWatchingItem (media_id itemToDelete) (store v) ∧
  console (handleDelete itemToDelete v) =
    console v ++ [("Failed to delete item or refetch continue watching:", e)].
Proof.
  intros Hdel. unfold History.handleDelete. rewrite Hdel. simpl.
  split; [done|]. split; [|split; [|done]].
  - by intros item [? _]%list_elem_of_filter.
  - rewrite list_elem_of_filter. tauto.
Qed.

End DeleteProperties.

(** ** The properties on the sample services *)

Section Samples.

Import History.

(** The service fails twice and answers the third request: the call
    returns the answer after three requests.  The service never answers in
    time: the call throws the timeout after three requests. *)
Lemma fetchWithRetry_bounded_witness :
  (fst (fetchWithRetry _ scripted "/tmdb/movie/2" 3 1000 (mkSt flaky []))
     = Ok (Some ok_response) ∧
   attempts (trace (snd (fetchWithRetry _ scripted "/tmdb/movie/2" 3 1000
                           (mkSt flaky [])))) = 3%nat) ∧
  (fst (fetchWithRetry _ scripted "/tmdb/movie/2" 3 1000 (mkSt stalled []))
     = Throw (mkError "Request timeout") ∧
   Z.of_nat (attempts (trace (snd (fetchWithRetry _ scripted "/tmdb/movie/2"
                                     3 1000 (mkSt stalled []))))) = 3).
Proof.
  split.
  - destruct (fetchWithRetry_bounded _ scripted "/tmdb/movie/2" 3 1000
                (mkSt flaky [])) as (_ & Hsuccess & _).
    destruct (Hsuccess 2%nat
                [Throw (mkError "Failed to fetch");
                 Throw (mkError "HTTP 503: Service Unavailable")]
                ok_response) as (Hres & Hcount & _).
    + lia.
    + reflexivity.
    + repeat constructor.
    + vm_compute. reflexivity.
    + split; [exact Hres|exact Hcount].
  - destruct (fetchWithRetry_bounded _ scripted "/tmdb/movie/2" 3 1000
                (mkSt stalled [])) as (_ & _ & Hexhausted).
    destruct (Hexhausted
                [Throw (mkError "Request timeout");
                 Throw (mkError "Request timeout")]
                (mkError "Request timeout")) as (Hres & Hcount).
    + lia.
    + repeat constructor.
    + vm_compute. reflexivity.
    + split; [exact Hres|exact Hcount].
Defined.

Lemma fetchWithRetry_no_retries_witness :
  0 ≤ 0 ∧
  fetchWithRetry _ scripted "/tmdb/movie/2" 0 1000 (mkSt flaky [])
    = (Ok None, mkSt flaky []).
Proof.
  split; [lia|].
  apply (fetchWithRetry_no_retries _ scripted "/tmdb/movie/2" 0 1000
           (mkSt flaky [])). lia.
Defined.

(** Two rows and a service whose second answer is the only good one.  Both
    first requests are sent before any answer is taken up, so the good
    answer goes to the second row; the first row retries twice in vain and
    gets the placeholder.  Four requests are sent. *)
Lemma enrichHistory_one_per_record_witness :
  [row_heat; row_ronin] !! 0%nat = Some row_heat ∧
  answers_received _ scripted (map enrich_task [row_heat; row_ronin]) []
    (mkSt second_only []) !! 0%nat = Some [not_found; not_found; not_found] ∧
  Forall failed [not_found; not_found; not_found] ∧
  fst (enrichHistory _ scripted [row_heat; row_ronin] [] (mkSt second_only []))
    !! 0%nat = Some (placeholder row_heat).
Proof.
  assert (Hgot :
    answers_received _ scripted (map enrich_task [row_heat; row_ronin]) []
      (mkSt second_only []) !! 0%nat = Some [not_found; not_found; not_found]).
  { vm_compute. reflexivity. }
  assert (Hfail : Forall failed [not_found; not_found; not_found]).
  { repeat constructor. }
  split; [reflexivity|]. split; [exact Hgot|]. split; [exact Hfail|].
  destruct (enrichHistory_one_per_record _ scripted [row_heat; row_ronin] []
              (mkSt second_only [])) as (_ & _ & _ & _ & Hplace).
  destruct (Hplace 0%nat row_heat [not_found; not_found; not_found]
              eq_refl Hgot Hfail) as (Hat & _).
  exact Hat.
Defined.

(** What the page shows for these two rows, and the requests sent. *)
Example enrichHistory_second_only :
  fst (enrichHistory _ scripted [row_heat; row_ronin] [] (mkSt second_only []))
    = [placeholder row_heat; result_of heat_json row_ronin] ∧
  attempts (trace (snd (enrichHistory _ scripted [row_heat; row_ronin] []
                          (mkSt second_only [])))) = 4%nat.
Proof. vm_compute. split; reflexivity. Qed.

(** The two rows retry in turn: the fourth request is the second try of
    the second row, which gets the good answer. *)
Example enrichHistory_fourth_only :
  fst (enrichHistory _ scripted [row_heat; row_ronin] (in_turn 2 12)
         (mkSt fourth_only []))
    = [placeholder row_heat; result_of heat_json row_ronin] ∧
  answers_received _ scripted (map enrich_task [row_heat; row_ronin])
    (in_turn 2 12) (mkSt fourth_only [])
    = [[not_found; not_found; not_found];
       [not_found; resolves_after 120 ok_response]].
Proof. vm_compute. split; reflexivity. Qed.

(** A row unknown to a service that answers by url, and a row known to it. *)
Example enrichHistory_two_rows :
  fst (enrichHistory _ catalogue [row_lost; row_heat] [1%nat; 0%nat] (mkSt tt []))
    = [placeholder row_lost; result_of heat_json row_heat].
Proof. vm_compute. reflexivity. Qed.

(** The delete of the first of two entries fails: the entry is off the
    page and its row is still in the backend. *)
Lemma handleDelete_failure_not_restored_witness :
  let v := mkView [placeholder row_lost; result_of heat_json row_heat] [1; 2]
             [watch_id_of row_lost; watch_id_of row_heat] [] in
  let v' := handleDelete _ _ failing_delete drop_continue refetch
              (placeholder row_lost) v in
  failing_delete (placeholder row_lost) (remote v)
    = (Some (mkError "delete failed"), remote v) ∧
  (placeholder row_lost ∉ history v') ∧
  watch_id (placeholder row_lost) ∈ remote v'.
Proof.
  cbv zeta.
  destruct (handleDelete_failure_not_restored _ _ failing_delete drop_continue
              refetch (placeholder row_lost)
              (mkView [placeholder row_lost; result_of heat_json row_heat]
                 [1; 2] [watch_id_of row_lost; watch_id_of row_heat] [])
              (mkError "delete failed")
              [watch_id_of row_lost; watch_id_of row_heat] eq_refl)
    as (_ & _ & Habsent & Hremote & _).
  split; [reflexivity|]. split; [exact Habsent|].
  rewrite Hremote. left.
Defined.

End Samples.

(** * Further properties of the favorites module *)

Section FavoritesStore.

Import Favorites.

Implicit Types (a mid : App) (show other : Show) (u : User) (e : Error)
  (user : option User) (error : option Error).

Lemma favoriteKey_ne (x y : Z) : x ≠ y → favoriteKey x ≠ favoriteKey y.
Proof. intros Hne Heq. by apply Hne, favoriteKey_inj. Qed.

Lemma remove_begin_authenticated u show a :
  remove_begin (Some u) show a =
    (call (remote_delete (user_id u) (id show) "tv")
       (toast (toast_error (quoted show +:+ " has been removed from your Favorites."))
          (setState (λ currentState,
             {| favorites :=
                  filter (λ fav, id fav ≠ id show) (favorites currentState);
                favoritedMedia :=
                  filter (λ k, k ≠ favoriteKey (id show))
                    (favoritedMedia currentState) |}) a)),
     Some (mkPendingRemove show (favorites (store a)) (favoritedMedia (store a)))).
Proof. reflexivity. Qed.

(** The store after the whole of an add, case by case. *)
Lemma addFavoriteShow_store user show error a :
  store (addFavoriteShow user show error a) =
    match user, error with
    | None, _ => store a
    | Some _, None =>
        if decide (favoriteKey (id show) ∈ favoritedMedia (store a))
        then store a
        else {| favorites := with_type show "tv" :: favorites (store a);
                favoritedMedia :=
                  favoritedMedia (store a) ∪ {[favoriteKey (id show)]} |}
    | Some _, Some _ =>
        if decide (favoriteKey (id show) ∈ favoritedMedia (store a))
        then store a
        else {| favorites :=
                  filter (λ f, id f ≠ id show) (favorites (store a));
                favoritedMedia :=
                  (favoritedMedia (store a) ∪ {[favoriteKey (id show)]})
                  ∖ {[favoriteKey (id show)]} |}
    end.
Proof.
  unfold addFavoriteShow, add_begin.
  destruct user as [u|]; [|by destruct error].
  case_decide; [by destruct error|].
  destruct error; simpl; [|done].
  by rewrite filter_cons_False by (simpl; tauto).
Qed.

(** The store after the whole of a remove, case by case. *)
Lemma removeFavoriteShow_store user show error a :
  store (removeFavoriteShow user show error a) =
    match user, error with
    | None, _ | Some _, Some _ => store a
    | Some _, None =>
        {| favorites := filter (λ fav, id fav ≠ id show) (favorites (store a));
           favoritedMedia :=
             filter (λ k, k ≠ favoriteKey (id show)) (favoritedMedia (store a)) |}
    end.
Proof.
  unfold removeFavoriteShow.
  destruct user as [u|]; [|by destruct error].
  rewrite remove_begin_authenticated.
  destruct error; [|done]. by destruct a as [[??]???].
Qed.

(** X1: an authenticated add of a show that is not in the index, whose
    insert succeeds, keeps the optimistic state: the show is a member, its
    entry, typed ['tv'], is at the head of the list in front of the former
    entries, one insert was sent for the user, and the only notification is
    the success notice. *)
Theorem add_success_keeps_optimistic u show a :
  favoriteKey (id show) ∉ favoritedMedia (store a) →
  let a' := addFavoriteShow (Some u) show None a in
  isShowFavorited (id show) a' = true ∧
  favorites (store a') = with_type show "tv" :: favorites (store a) ∧
  (∀ k, k ∈ favoritedMedia (store a') ↔
        k ∈ favoritedMedia (store a) ∨ k = favoriteKey (id show)) ∧
  remote a' = remote a ++ [remote_insert (user_id u) (id show) "tv"] ∧
  toasts a' = toasts a ++
    [toast_success (quoted show +:+ " has been added to your Favorites.")] ∧
  console a' = console a.
Proof.
  intros Hkey. cbv zeta. unfold addFavoriteShow.
  rewrite add_begin_fresh by done. simpl.
  split; [|split; [done|split; [|done]]].
  - apply bool_decide_eq_true. simpl.
    apply elem_of_union. right. by apply elem_of_singleton.
  - intros k. by rewrite elem_of_union, elem_of_singleton.
Qed.

Lemma add_success_keeps_optimistic_witness :
  (favoriteKey (id show42) ∉ favoritedMedia (store no_app)) ∧
  isShowFavorited (id show42)
    (addFavoriteShow (Some alice) show42 None no_app) = true.
Proof.
  assert (H : favoriteKey (id show42) ∉ favoritedMedia (store no_app)).
  { simpl. apply not_elem_of_empty. }
  split; [exact H|].
  destruct (add_success_keeps_optimistic alice show42 no_app H) as (Hm & _).
  exact Hm.
Defined.

(** X2: an add or a remove of a show, whoever calls it and whatever the
    backend answers, leaves the shows of every other id alone: their
    membership test and their entries in the list are as before. *)
Theorem other_ids_untouched user show error a (y : Z) :
  y ≠ id show →
  isShowFavorited y (addFavoriteShow user show error a) = isShowFavorited y a ∧
  isShowFavorited y (removeFavoriteShow user show error a) = isShowFavorited y a ∧
  (∀ f, id f = y →
     (f ∈ favorites (store (addFavoriteShow user show error a)) ↔
      f ∈ favorites (store a)) ∧
     (f ∈ favorites (store (removeFavoriteShow user show error a)) ↔
      f ∈ favorites (store a))).
Proof.
  intros Hy. pose proof (favoriteKey_ne _ _ Hy) as Hk.
  unfold isShowFavorited.
  rewrite addFavoriteShow_store, removeFavoriteShow_store.
  split; [|split].
  - apply bool_decide_ext.
    destruct user, error; try case_decide; simpl; try done.
    + rewrite elem_of_difference, elem_of_union, elem_of_singleton. tauto.
    + rewrite elem_of_union, elem_of_singleton. tauto.
  - apply bool_decide_ext.
    destruct user, error; simpl; try done.
    rewrite elem_of_filter. tauto.
  - intros f Hf. subst y.
    split; destruct user, error; try case_decide; simpl; try done.
    + rewrite list_elem_of_filter. tauto.
    + rewrite elem_of_cons. split; [|tauto].
      intros [->|?]; [|done]. by destruct Hy.
    + rewrite list_elem_of_filter. tauto.
Qed.

Lemma other_ids_untouched_witness :
  7 ≠ id show42 ∧
  isShowFavorited 7
    (removeFavoriteShow (Some alice) show42 None
       (mkApp (mkState [show42; show7] {["42-tv"; "7-tv"]}) [] [] []))
  = isShowFavorited 7
      (mkApp (mkState [show42; show7] {["42-tv"; "7-tv"]}) [] [] []).
Proof.
  assert (H : 7 ≠ id show42) by (simpl; lia).
  split; [exact H|].
  destruct (other_ids_untouched (Some alice) show42 None
              (mkApp (mkState [show42; show7] {["42-tv"; "7-tv"]}) [] [] [])
              7 H) as (_ & Hrem & _).
  exact Hrem.
Defined.

Lemma consistent_no_entry (st : State) (x : Z) :
  consistent st → favoriteKey x ∉ favoritedMedia st →
  ∀ f, f ∈ favorites st → id f ≠ x.
Proof.
  intros [Hidx _] Hkey f Hf Heq. apply Hkey, Hidx. exists f. by subst.
Qed.

Lemma NoDup_ids_filter (l : list Show) (x : Z) :
  NoDup (id <$> l) → NoDup (id <$> filter (λ f, id f ≠ x) l).
Proof.
  intros Hdup. eapply sublist_NoDup; [exact Hdup|].
  apply fmap_sublist, sublist_filter.
Qed.

Lemma consistent_removed (st : State) (x : Z) :
  consistent st →
  consistent {| favorites := filter (λ fav, id fav ≠ x) (favorites st);
                favoritedMedia :=
                  filter (λ k, k ≠ favoriteKey x) (favoritedMedia st) |}.
Proof.
  intros [Hidx Hdup]. split; simpl; [|by apply NoDup_ids_filter].
  intros k. rewrite elem_of_filter, Hidx. split.
  - intros (Hk & f & Hf & ->). exists f. split; [|done].
    apply list_elem_of_filter. split; [|done]. by intros <-.
  - intros (f & [Hne Hf]%list_elem_of_filter & ->).
    split; [by apply favoriteKey_ne|]. by exists f.
Qed.

Lemma consistent_added (st : State) show :
  consistent st → favoriteKey (id show) ∉ favoritedMedia st →
  consistent {| favorites := with_type show "tv" :: favorites st;
                favoritedMedia := favoritedMedia st ∪ {[favoriteKey (id show)]} |}.
Proof.
  intros Hc Hkey. pose proof (consistent_no_entry _ _ Hc Hkey) as Hno.
  destruct Hc as [Hidx Hdup]. split; simpl.
  - intros k. rewrite elem_of_union, elem_of_singleton, Hidx. split.
    + intros [(f & Hf & ->)| ->].
      * exists f. split; [by right|done].
      * exists (with_type show "tv"). split; [by left|done].
    + intros (f & [->|Hf]%elem_of_cons & ->); [by right|].
      left. by exists f.
  - apply NoDup_cons. split; [|done].
    intros (f & Hid & Hf)%list_elem_of_fmap. by apply (Hno f).
Qed.

Lemma rolled_back_index (idx : gset string) (k : string) :
  k ∉ idx → (idx ∪ {[k]}) ∖ {[k]} = idx.
Proof.
  intros Hk. apply set_eq. intros x.
  rewrite elem_of_difference, elem_of_union, elem_of_singleton.
  split; [tauto|]. intros Hx. split; [tauto|]. by intros ->.
Qed.

(** X3: a store that holds shows only, with its index and its list in
    agreement and every id at most once, stays so through an add and
    through a remove, whoever calls and whatever the backend answers. *)
Theorem consistent_preserved user show error a :
  consistent (store a) →
  consistent (store (addFavoriteShow user show error a)) ∧
  consistent (store (removeFavoriteShow user show error a)).
Proof.
  intros Hc. rewrite addFavoriteShow_store, removeFavoriteShow_store. split.
  - destruct user, error; try case_decide; try done.
    + rewrite rolled_back_index by done.
      rewrite filter_id_all by by apply consistent_no_entry.
      by destruct (store a).
    + by apply consistent_added.
  - destruct user, error; try done. by apply consistent_removed.
Qed.

Lemma consistent_empty : consistent (mkState [] ∅).
Proof.
  split; simpl; [|constructor]. intros k. split.
  - by intros ?%not_elem_of_empty.
  - by intros (f & ?%elem_of_nil & _).
Qed.

Lemma consistent_preserved_witness :
  consistent (store no_app) ∧
  consistent (store (addFavoriteShow (Some alice) show42 None no_app)).
Proof.
  split; [exact consistent_empty|].
  destruct (consistent_preserved (Some alice) show42 None no_app
              consistent_empty) as [Hadd _].
  exact Hadd.
Defined.

(** X4: on such a store, adding a show that is not a member and then
    removing it, both calls succeeding, gives back the list and the index
    as they were. *)
Theorem add_then_remove_restores u show a :
  consistent (store a) →
  favoriteKey (id show) ∉ favoritedMedia (store a) →
  store (removeFavoriteShow (Some u) show None
           (addFavoriteShow (Some u) show None a)) = store a.
Proof.
  intros Hc Hkey. rewrite removeFavoriteShow_store, addFavoriteShow_store.
  rewrite decide_False by done. simpl.
  rewrite filter_cons_False by (simpl; tauto).
  rewrite filter_id_all by by apply consistent_no_entry.
  destruct (store a) as [favs idx]. simpl in *. f_equal.
  apply set_eq. intros k.
  rewrite elem_of_filter, elem_of_union, elem_of_singleton.
  split; [tauto|]. intros Hk. split; [by intros ->|tauto].
Qed.

Lemma add_then_remove_restores_witness :
  consistent (store no_app) ∧
  (favoriteKey (id show42) ∉ favoritedMedia (store no_app)) ∧
  store (removeFavoriteShow (Some alice) show42 None
           (addFavoriteShow (Some alice) show42 None no_app)) = store no_app.
Proof.
  assert (H : favoriteKey (id show42) ∉ favoritedMedia (store no_app)).
  { simpl. apply not_elem_of_empty. }
  split; [exact consistent_empty|]. split; [exact H|].
  exact (add_then_remove_restores alice show42 no_app consistent_empty H).
Defined.

(** X5: a remove does not look the show up first.  Called with an
    identity for a show that is neither in the index nor in the list, it
    leaves the store as it is and still emits the removal notice and sends
    the delete to the backend; called without an identity it does nothing
    at all. *)
Theorem remove_unguarded show error a :
  removeFavoriteShow None show error a = a ∧
  ∀ u,
    favoriteKey (id show) ∉ favoritedMedia (store a) →
    (∀ f, f ∈ favorites (store a) → id f ≠ id show) →
    store (removeFavoriteShow (Some u) show None a) = store a ∧
    toasts (removeFavoriteShow (Some u) show None a) = toasts a ++
      [toast_error (quoted show +:+ " has been removed from your Favorites.")] ∧
    remote (removeFavoriteShow (Some u) show None a) =
      remote a ++ [remote_delete (user_id u) (id show) "tv"].
Proof.
  split; [done|]. intros u Hkey Hno.
  split; [|done]. rewrite removeFavoriteShow_store.
  rewrite filter_id_all by done.
  destruct (store a) as [favs idx]. simpl in *. f_equal.
  apply set_eq. intros k. rewrite elem_of_filter.
  split; [tauto|]. intros Hk. split; [by intros ->|done].
Qed.

Lemma remove_unguarded_witness :
  (favoriteKey (id show42) ∉ favoritedMedia (store no_app)) ∧
  (∀ f, f ∈ favorites (store no_app) → Favorites.id f ≠ id show42) ∧
  remote (removeFavoriteShow (Some alice) show42 None no_app) =
    [remote_delete "alice" 42 "tv"].
Proof.
  assert (H : favoriteKey (id show42) ∉ favoritedMedia (store no_app)).
  { simpl. apply not_elem_of_empty. }
  assert (H' : ∀ f, f ∈ favorites (store no_app) → Favorites.id f ≠ id show42).
  { simpl. by intros f ?%elem_of_nil. }
  split; [exact H|]. split; [exact H'|].
  destruct (remove_unguarded show42 None no_app) as [_ Hrem].
  destruct (Hrem alice H H') as (_ & _ & Hcall). exact Hcall.
Defined.

(** X6: after a remove whose delete succeeded the show is no member and no
    entry of the list has its id, whatever the store held; removing it once
    more leaves the list and the index unchanged. *)
Theorem remove_success_absent u show a :
  let a' := removeFavoriteShow (Some u) show None a in
  isShowFavorited (id show) a' = false ∧
  (∀ f, f ∈ favorites (store a') → id f ≠ id show) ∧
  store (removeFavoriteShow (Some u) show None a') = store a'.
Proof.
  cbv zeta. unfold isShowFavorited. rewrite !removeFavoriteShow_store. simpl.
  split; [|split].
  - apply bool_decide_eq_false. rewrite elem_of_filter. tauto.
  - by intros f [? _]%list_elem_of_filter.
  - f_equal.
    + apply filter_id_all. by intros f [? _]%list_elem_of_filter.
    + apply set_eq. intros k. rewrite !elem_of_filter. tauto.
Qed.

(** X7: while the delete of a remove is in flight, another show is added
    and its insert succeeds; the delete then fails.  The rollback sets the
    store back to the snapshot taken before the remove, so the show added in
    between is no member any more although the backend has inserted it. *)
Theorem remove_rollback_loses_interleaved_add u show other e a :
  id other ≠ id show →
  favoriteKey (id other) ∉ favoritedMedia (store a) →
  ∃ a1 p,
    remove_begin (Some u) show a = (a1, Some p) ∧
    let a2 := addFavoriteShow (Some u) other None a1 in
    let a3 := remove_settle p (Some e) a2 in
    isShowFavorited (id other) a2 = true ∧
    remote_insert (user_id u) (id other) "tv" ∈ remote a3 ∧
    isShowFavorited (id other) a3 = false ∧
    store a3 = store a.
Proof.
  intros Hne Hkey. eexists _, _. split; [apply remove_begin_authenticated|].
  cbv zeta.
  match goal with
  | |- context [addFavoriteShow _ _ _ ?x] => set (a1 := x)
  end.
  assert (Hkey1 : favoriteKey (id other) ∉ favoritedMedia (store a1)).
  { simpl. rewrite elem_of_filter. tauto. }
  destruct (add_success_keeps_optimistic u other a1 Hkey1)
    as (Hm & _ & _ & Hr & _).
  split; [exact Hm|]. split; [|split].
  - simpl. unfold addFavoriteShow. rewrite add_begin_fresh by done. simpl.
    rewrite !elem_of_app. right. by apply list_elem_of_singleton.
  - apply bool_decide_eq_false. by simpl.
  - by destruct a as [[??]???].
Qed.

Lemma remove_rollback_loses_interleaved_add_witness :
  let a := mkApp (mkState [show42] {["42-tv"]}) [] [] [] in
  id show7 ≠ id show42 ∧
  (favoriteKey (id show7) ∉ favoritedMedia (store a)) ∧
  ∃ a1 p,
    remove_begin (Some alice) show42 a = (a1, Some p) ∧
    isShowFavorited (id show7)
      (remove_settle p (Some boom)
         (addFavoriteShow (Some alice) show7 None a1)) = false.
Proof.
  cbv zeta.
  assert (H : Favorites.id show7 ≠ id show42) by (simpl; lia).
  assert (H' : favoriteKey (id show7) ∉ ({["42-tv"]} : gset string)).
  { change (favoriteKey (id show7)) with "7-tv".
    rewrite elem_of_singleton. discriminate. }
  split; [exact H|]. split; [exact H'|].
  destruct (remove_rollback_loses_interleaved_add alice show42 show7 boom
              (mkApp (mkState [show42] {["42-tv"]}) [] [] []) H H')
    as (a1 & p & Hb & _ & _ & Hlost & _).
  exists a1, p. split; [exact Hb|exact Hlost].
Defined.

(** X21: an authenticated add of a show that is not in the index makes
    it a member at once; when the insert then fails, the show is no member
    and no entry has its id once the rollback ran, whatever the store held
    in between.  On a store that holds shows only, with nothing in between,
    the list and the index are exactly those before the call. *)
Theorem add_failure_rolls_back u show e a :
  favoriteKey (id show) ∉ favoritedMedia (store a) →
  (∃ a1 p,
     add_begin (Some u) show a = (a1, Some p) ∧
     isShowFavorited (id show) a1 = true ∧
     ∀ mid,
       isShowFavorited (id show) (add_settle p (Some e) mid) = false ∧
       (∀ f, f ∈ favorites (store (add_settle p (Some e) mid)) →
             id f ≠ id show) ∧
       console (add_settle p (Some e) mid) =
         console mid ++ [("Error adding favorite show:", e)] ∧
       toasts (add_settle p (Some e) mid) = toasts mid) ∧
  (consistent (store a) →
   store (addFavoriteShow (Some u) show (Some e) a) = store a).
Proof.
  intros Hkey. split.
  - eexists _, _. split; [by apply add_begin_fresh|]. split.
    + apply bool_decide_eq_true. simpl.
      apply elem_of_union. right. by apply elem_of_singleton.
    + intros mid. split; [|split; [|done]].
      * apply bool_decide_eq_false. simpl.
        apply not_elem_of_difference. right. by apply elem_of_singleton.
      * by intros f [? _]%list_elem_of_filter.
  - intros Hc. apply add_failure_rollback_exact; [done|].
    by apply consistent_no_entry.
Qed.

Lemma add_failure_rolls_back_witness :
  (favoriteKey (id show42) ∉ favoritedMedia (store no_app)) ∧
  store (addFavoriteShow (Some alice) show42 (Some boom) no_app) = store no_app.
Proof.
  assert (H : favoriteKey (id show42) ∉ favoritedMedia (store no_app)).
  { simpl. apply not_elem_of_empty. }
  split; [exact H|].
  destruct (add_failure_rolls_back alice show42 boom no_app H) as [_ Hexact].
  exact (Hexact consistent_empty).
Defined.

End FavoritesStore.

(** * Further properties of the retrying fetcher *)

Section FetcherTrace.

Import History.

Variable World : Type.
Variable fetch : string → World → FetchOutcome * World.

Abbreviation St := (St World).
Abbreviation attempt_on := (attempt_on World fetch).
Abbreviation fetch_loop := (fetch_loop World fetch).
Abbreviation fetchWithRetry := (fetchWithRetry World fetch).

Implicit Types (s : St) (url : string) (n : nat) (i maxRetries delay : Z)
  (evs tr : list Event).

Lemma attempts_app tr evs : attempts (tr ++ evs) = (attempts tr + attempts evs)%nat.
Proof. unfold attempts. by rewrite filter_app, length_app. Qed.

Lemma warnings_app tr evs : warnings (tr ++ evs) = (warnings tr + warnings evs)%nat.
Proof. unfold warnings. by rewrite filter_app, length_app. Qed.

Lemma sleeps_app tr evs : sleeps (tr ++ evs) = sleeps tr ++ sleeps evs.
Proof. unfold sleeps. by rewrite omap_app. Qed.

(** An attempt only hands on a response that is [ok]. *)
Lemma attempt_on_ok url (w : World) response :
  fst (attempt_on url w) = Ok response → ok response = true.
Proof.
  unfold History.attempt_on. destruct (fetch url w) as [o w']. simpl.
  unfold check_ok. destruct (race o) as [r|e]; [|done].
  destruct (ok r) eqn:Hok; simpl; [|done]. by intros [= <-].
Qed.

Lemma backoff_shift delay i (m : nat) :
  delay * (i + 1) :: ((λ j : nat, delay * (i + 1 + Z.of_nat j)) <$> seq 1 m) =
  (λ j : nat, delay * (i + Z.of_nat j)) <$> seq 1 (S m).
Proof.
  change (seq 1 (S m)) with (1%nat :: seq 2 m). rewrite fmap_cons.
  rewrite <-(fmap_S_seq 1), <-list_fmap_compose.
  f_equal.
  apply list_fmap_ext. intros _ j _. simpl. f_equal. lia.
Qed.

(** What the loop adds to the trace and how that relates to its result. *)
Lemma fetch_loop_shape url maxRetries delay n :
  ∀ i s, maxRetries = i + Z.of_nat n →
  ∃ evs,
    trace (snd (fetch_loop url maxRetries delay n i s)) = trace s ++ evs ∧
    sleeps evs = (λ j : nat, delay * (i + Z.of_nat j)) <$> seq 1 (attempts evs - 1) ∧
    match fst (fetch_loop url maxRetries delay n i s) with
    | Ok None => n = 0%nat ∧ evs = []
    | Ok (Some r) =>
        ok r = true ∧ (1 ≤ attempts evs ≤ n)%nat ∧
        warnings evs = (attempts evs - 1)%nat
    | Throw e => attempts evs = n ∧ (1 ≤ n)%nat ∧ warnings evs = n
    end.
Proof.
  induction n as [|n IH]; intros i s Hmax.
  { exists []. simpl. by rewrite app_nil_r. }
  destruct (fst (attempt_on url (world s))) as [response|e] eqn:He.
  - rewrite (fetch_loop_success _ _ _ _ _ _ _ _ _ He). simpl.
    exists [ev_fetch url]. split; [done|]. split; [done|].
    split; [by eapply attempt_on_ok|]. split; [|done].
    change (attempts [ev_fetch url]) with 1%nat. lia.
  - destruct (decide (i = maxRetries - 1)) as [Hi|Hi].
    + assert (n = 0%nat) as -> by lia.
      simpl. rewrite attempt_run, He. unfold bind, emit, throw. simpl.
      rewrite (proj2 (Z.eqb_eq _ _) Hi). simpl.
      eexists [ev_fetch url; ev_warn _ _].
      split; [by rewrite <-app_assoc|]. by split.
    + rewrite (fetch_loop_retry _ _ _ _ _ _ _ _ _ Hi He).
      match goal with
      | |- context [fetch_loop url maxRetries delay n (i + 1) ?x] => set (s1 := x)
      end.
      destruct (IH (i + 1) s1) as (evs & Htr & Hsl & Hres); [lia|].
      eexists ([ev_fetch url; ev_warn _ _; ev_sleep (delay * (i + 1))] ++ evs).
      split; [rewrite Htr; simpl; by rewrite <-app_assoc|].
      rewrite attempts_app, warnings_app, sleeps_app.
      change (attempts [ev_fetch url; ev_warn _ _; ev_sleep _]) with 1%nat.
      change (warnings [ev_fetch url; ev_warn _ _; ev_sleep _]) with 1%nat.
      change (sleeps [ev_fetch url; ev_warn _ _; ev_sleep (delay * (i + 1))])
        with [delay * (i + 1)].
      assert (Hpos : (1 ≤ attempts evs)%nat).
      { destruct (fst (fetch_loop url maxRetries delay n (i + 1) s1))
          as [[r|]|e']; [lia| |lia]. destruct Hres as [-> _]. lia. }
      split.
      * rewrite Hsl. simpl app.
        replace (1 + attempts evs - 1)%nat with (S (attempts evs - 1)) by lia.
        apply backoff_shift.
      * destruct (fst (fetch_loop url maxRetries delay n (i + 1) s1))
          as [[r|]|e']; [|lia|]; repeat split; try lia; tauto.
Qed.

(** X8: the call only appends to the trace.  Between the requests it made
    it waited [delay], [2 * delay], and so on, one wait after each request
    but the last; it warned once for each failed request: for every request
    when it throws, for all but the last when it returns. *)
Theorem fetchWithRetry_backoff url maxRetries delay s :
  ∃ evs,
    trace (snd (fetchWithRetry url maxRetries delay s)) = trace s ++ evs ∧
    sleeps evs = (λ j : nat, delay * Z.of_nat j) <$> seq 1 (attempts evs - 1) ∧
    warnings evs =
      match fst (fetchWithRetry url maxRetries delay s) with
      | Ok _ => (attempts evs - 1)%nat
      | Throw _ => attempts evs
      end.
Proof.
  unfold History.fetchWithRetry.
  destruct (decide (maxRetries ≤ 0)) as [Hle|Hgt].
  { replace (Z.to_nat maxRetries) with 0%nat by lia.
    exists []. simpl. by rewrite app_nil_r. }
  destruct (fetch_loop_shape url maxRetries delay (Z.to_nat maxRetries) 0 s)
    as (evs & Htr & Hsl & Hres); [lia|].
  exists evs. split; [done|]. split.
  - rewrite Hsl. apply list_fmap_ext. intros _ j _. f_equal.
  - destruct (fst (fetch_loop url maxRetries delay (Z.to_nat maxRetries) 0 s))
      as [[r|]|e]; [tauto| |lia]. by destruct Hres as [_ ->].
Qed.

(** X9: the call returns [undefined] exactly when [maxRetries] is at most
    [0], and a response it returns is always [ok]. *)
Theorem fetchWithRetry_result url maxRetries delay s :
  (fst (fetchWithRetry url maxRetries delay s) = Ok None ↔ maxRetries ≤ 0) ∧
  (∀ response,
     fst (fetchWithRetry url maxRetries delay s) = Ok (Some response) →
     ok response = true).
Proof.
  unfold History.fetchWithRetry.
  destruct (decide (maxRetries ≤ 0)) as [Hle|Hgt].
  { replace (Z.to_nat maxRetries) with 0%nat by lia. by split. }
  destruct (fetch_loop_shape url maxRetries delay (Z.to_nat maxRetries) 0 s)
    as (evs & _ & _ & Hres); [lia|].
  destruct (fst (fetch_loop url maxRetries delay (Z.to_nat maxRetries) 0 s))
    as [[r|]|e].
  - split; [split; [done|lia]|]. intros ? [= <-]. tauto.
  - lia.
  - split; [split; [done|lia]|]. done.
Qed.

(** When no request to the url settles in time, every attempt throws the
    timeout. *)
Lemma attempt_on_slow url (w : World) :
  slow (fst (fetch url w)) →
  fst (attempt_on url w) = Throw (mkError "Request timeout").
Proof.
  unfold History.attempt_on. destruct (fetch url w) as [o w']. simpl.
  destruct o as [ms r|ms e|]; simpl; [| |done]; intros Hms;
    by rewrite (proj2 (Z.ltb_ge _ _) Hms).
Qed.

Lemma fetch_loop_slow url maxRetries delay n :
  (∀ w, slow (fst (fetch url w))) →
  ∀ i s, maxRetries = i + Z.of_nat (S n) →
  fst (fetch_loop url maxRetries delay (S n) i s)
    = Throw (mkError "Request timeout") ∧
  attempts (trace (snd (fetch_loop url maxRetries delay (S n) i s)))
    = (attempts (trace s) + S n)%nat.
Proof.
  intros Hslow. induction n as [|n IH]; intros i s Hmax.
  - destruct (fetch_loop_last World fetch url maxRetries delay 0 i s
                (mkError "Request timeout")) as (-> & -> & _);
      [lia|by apply attempt_on_slow|]. split; [done|lia].
  - rewrite (fetch_loop_retry World fetch url maxRetries delay (S n) i s
               (mkError "Request timeout")) by (lia || by apply attempt_on_slow).
    destruct (IH (i + 1)
      {| world := snd (attempt_on url (world s));
         trace := trace s ++
           [ev_fetch url;
            ev_warn ("Fetch attempt " +:+ pretty (i + 1) +:+ " failed for " +:+
                     url +:+ ":") (message (mkError "Request timeout"));
            ev_sleep (delay * (i + 1))] |}) as [-> ->]; [lia|].
    simpl. rewrite attempts_retry_trace. split; [done|lia].
Qed.

(** X10: against a service none of whose answers for the url settles
    within 10000 ms, a call with a positive [maxRetries] throws
    ["Request timeout"] after exactly [maxRetries] requests, also when the
    late answers are good responses. *)
Theorem fetchWithRetry_timeout url maxRetries delay s :
  (∀ w, slow (fst (fetch url w))) →
  0 < maxRetries →
  fst (fetchWithRetry url maxRetries delay s)
    = Throw (mkError "Request timeout") ∧
  Z.of_nat (attempts (trace (snd (fetchWithRetry url maxRetries delay s))))
    = Z.of_nat (attempts (trace s)) + maxRetries.
Proof.
  intros Hslow Hpos. unfold History.fetchWithRetry.
  destruct (Z.to_nat maxRetries) as [|n] eqn:Hn; [lia|].
  destruct (fetch_loop_slow url maxRetries delay n Hslow 0 s) as [-> ->]; [lia|].
  split; [done|lia].
Qed.

End FetcherTrace.

(** * Further properties of the enrichment *)

Section EnrichRows.

Import History.

Variable World : Type.
Variable fetch : string → World → FetchOutcome * World.

Abbreviation St := (St World).
Abbreviation fetchWithRetry := (fetchWithRetry World fetch).
Abbreviation enrich := (enrich World fetch).
Abbreviation settle_all := (settle_all World fetch).
Abbreviation enrichHistory := (enrichHistory World fetch).
Abbreviation fetchHistory := (fetchHistory World fetch).

Implicit Types (s : St) (item : RawItem) (rows : list RawItem)
  (schedule : list nat)
  (details episodeDetails : JsonObject) (response : Response) (e : Error).

(** X11: for an episode row whose details were fetched and parsed, a
    failure of the episode request costs the episode extras only: the
    callback returns the entry built from the details and the row, with the
    title, name and overview of the details, and the failure goes to the
    console. *)
Theorem enrich_episode_failure_degrades item s response details s1 e s2 :
  is_episode item = true →
  fetchWithRetry (details_url item) 3 1000 s = (Ok (Some response), s1) →
  body response = Some (Some details) →
  fetchWithRetry (episode_url item) 3 1000 s1 = (Throw e, s2) →
  enrich item s =
    (Ok (result_of details item),
     {| world := world s2;
        trace := trace s2 ++ [ev_error "Error fetching episode details:" e] |}) ∧
  stands_for item (result_of details item) ∧
  title (result_of details item) = json_title details ∧
  name (result_of details item) = json_name details ∧
  overview (result_of details item) = json_overview details.
Proof.
  intros Hep H1 Hbody H2. split; [|done].
  unfold History.enrich, try_catch, bind, response_json, deref, ret, emit.
  by rewrite H1, Hbody, Hep, H2.
Qed.

(** X12: when both requests of an episode row succeed, the entry takes
    its episode name, still and episode overview from the episode and the
    rest from the details and the row. *)
Theorem enrich_episode_success item s response details s1
    episodeResponse episodeDetails s2 :
  is_episode item = true →
  fetchWithRetry (details_url item) 3 1000 s = (Ok (Some response), s1) →
  body response = Some (Some details) →
  fetchWithRetry (episode_url item) 3 1000 s1 = (Ok (Some episodeResponse), s2) →
  body episodeResponse = Some (Some episodeDetails) →
  enrich item s = (Ok (with_episode (result_of details item) episodeDetails), s2) ∧
  let o := with_episode (result_of details item) episodeDetails in
  episode_name o = json_name episodeDetails ∧
  still_path o = json_still_path episodeDetails ∧
  episode_overview o = json_overview episodeDetails ∧
  title o = json_title details ∧ name o = json_name details ∧
  overview o = json_overview details ∧ id o = json_id details ∧
  stands_for item o.
Proof.
  intros Hep H1 Hbody H2 Hbody2. split; [|done].
  unfold History.enrich, try_catch, bind, response_json, deref, ret, emit.
  by rewrite H1, Hbody, Hep, H2, Hbody2.
Qed.

(** X13: a good response whose body does not parse, or parses to [null],
    gives the placeholder like a failed request does, and no episode request
    is made. *)
Theorem enrich_bad_body_placeholder item s response s1 :
  fetchWithRetry (details_url item) 3 1000 s = (Ok (Some response), s1) →
  body response = None ∨ body response = Some None →
  ∃ e,
    enrich item s =
      (Ok (placeholder item),
       {| world := world s1;
          trace := trace s1 ++ [ev_error (details_error_label item) e] |}).
Proof.
  intros H1 Hbody.
  unfold History.enrich, try_catch, bind, response_json, deref, ret, emit, throw.
  rewrite H1. destruct Hbody as [-> | ->]; by eexists.
Qed.




Lemma answers_bound rows (finals : list (list FetchOutcome * Res HistoryItem)) :
  Forall2 (λ item f, feed (enrich_task item) (fst f) = Some (snd f)) rows finals →
  (sum_list_with (λ f, length (fst f)) finals
   ≤ 3 * (length rows + length (filter (λ item, is_episode item) rows)))%nat.
Proof.
  induction 1 as [|item f rows finals Hfeed _ IH]; [simpl; lia|].
  destruct (feed_enrich_task item (fst f) (snd f) Hfeed) as (_ & _ & Hlen & _).
  rewrite filter_cons. simpl sum_list_with.
  destruct (is_episode item) eqn:Hep.
  - rewrite decide_True by done. simpl length. lia.
  - rewrite decide_False by (simpl; tauto). simpl length. lia.
Qed.

(** X15: the enrichment of [N] rows, [E] of them episodes, sends at most
    [3 * (N + E)] requests, hence at most [6 * N]. *)
Theorem enrichHistory_attempts rows :
  ∀ schedule s,
    (attempts (trace (snd (enrichHistory rows schedule s)))
     ≤ attempts (trace s) +
       3 * (length rows + length (filter (λ item, is_episode item) rows)))%nat ∧
    (attempts (trace (snd (enrichHistory rows schedule s)))
     ≤ attempts (trace s) + 6 * length rows)%nat.
Proof.
  intros schedule s.
  assert (Hsnd : snd (enrichHistory rows schedule s) =
                 snd (settle_all (map enrich_task rows) schedule s)).
  { unfold History.enrichHistory, History.allSettled.
    by destruct (settle_all (map enrich_task rows) schedule s). }
  rewrite Hsnd.
  destruct (settle_all_spec World fetch (λ _, True) (λ _ _, I)
              (map enrich_task rows) schedule s) as [Hall ->].
  change (map enrich_task rows) with (enrich_task <$> rows) in Hall.
  rewrite Forall2_fmap_l in Hall.
  assert (Hall' : Forall2 (λ item f, feed (enrich_task item) (fst f) = Some (snd f))
                    rows (fst (settle_all (enrich_task <$> rows) schedule s))).
  { eapply Forall2_impl; [exact Hall|]. by intros item f [? _]. }
  pose proof (answers_bound rows _ Hall') as Hsum.
  pose proof (length_filter (λ item, is_episode item) rows) as Hle.
  change (map enrich_task rows) with (enrich_task <$> rows).
  split; lia.
Qed.

End EnrichRows.


(** * Further properties of the history page *)

Section PageProperties.

Import History.

Variable World : Type.
Variable fetch : string → World → FetchOutcome * World.

Abbreviation St := (St World).
Abbreviation enrichHistory := (enrichHistory World fetch).
Abbreviation fetchHistory := (fetchHistory World fetch).

Implicit Types (s : St) (p : Page) (user : option User) (u : User)
  (schedule : list nat)
  (connectionOk : Res bool) (historyData : Res (option (list RawItem))).

(** X16: whatever happens, [fetchHistory] ends with the loading flag off.
    With a user, the page shows the error message and an empty history
    exactly when one of the checks before the enrichment failed; otherwise
    it shows no error. *)
Theorem fetchHistory_settles user connectionOk historyData schedule p s :
  loading (fst (fetchHistory user connectionOk historyData schedule p s)) = false ∧
  ∀ u, user = Some u →
    if precondition_failed connectionOk historyData
    then
      error (fst (fetchHistory user connectionOk historyData schedule p s)) =
        Some "Failed to load watch history. Please try again." ∧
      page_history (fst (fetchHistory user connectionOk historyData schedule p s)) = []
    else
      error (fst (fetchHistory user connectionOk historyData schedule p s)) = None.
Proof.
  unfold History.fetchHistory, fetchHistory_failed.
  destruct user as [u|]; [|by split].
  destruct connectionOk as [[|]|e]; [|by split..].
  destruct historyData as [[[|item rows]|]|e]; try by split.
  destruct (enrichHistory _ _) as [out s2]. by split.
Qed.

(** X17: without a user, after a failed check, or when the history has no
    row, [fetchHistory] sends no request and leaves the service alone.
    Without a user it does not even touch the history shown or the console;
    with one, the history shown is empty. *)
Theorem fetchHistory_no_request user connectionOk historyData schedule p s :
  user = None ∨ precondition_failed connectionOk historyData = true ∨
    no_rows historyData = true →
  world (snd (fetchHistory user connectionOk historyData schedule p s)) = world s ∧
  requested (trace (snd (fetchHistory user connectionOk historyData schedule p s)))
    = requested (trace s) ∧
  (user = None →
     snd (fetchHistory user connectionOk historyData schedule p s) = s ∧
     page_history (fst (fetchHistory user connectionOk historyData schedule p s))
       = page_history p ∧
     error (fst (fetchHistory user connectionOk historyData schedule p s)) = error p) ∧
  (is_Some user →
     page_history (fst (fetchHistory user connectionOk historyData schedule p s)) = []).
Proof.
  intros H. unfold History.fetchHistory, fetchHistory_failed.
  destruct user as [u|].
  - assert (Hreq : ∀ label e,
              requested (trace s ++ [ev_error label e]) = requested (trace s)).
    { intros. unfold requested. rewrite omap_app. simpl. by rewrite app_nil_r. }
    destruct connectionOk as [[|]|e]; simpl;
      [|by rewrite Hreq; repeat split..].
    destruct historyData as [[[|item rows]|]|e]; simpl;
      try (by rewrite ?Hreq; repeat split).
    destruct H as [H|[H|H]]; done.
  - by repeat split.
Qed.

End PageProperties.

Section PageSamples.

Import History.

Lemma fetchHistory_settles_witness :
  error (fst (History.fetchHistory unit catalogue (Some (mkUser "u1"))
                (Ok false) (Ok (Some [row_heat])) []
                (mkPage [] true None) (mkSt tt [])))
  = Some "Failed to load watch history. Please try again.".
Proof.
  destruct (fetchHistory_settles unit catalogue (Some (mkUser "u1")) (Ok false)
              (Ok (Some [row_heat])) [] (mkPage [] true None) (mkSt tt []))
    as [_ H].
  destruct (H (mkUser "u1") eq_refl) as [Herr _]. exact Herr.
Defined.

Lemma fetchHistory_no_request_witness :
  no_rows (Ok (Some [])) = true ∧
  requested (trace (snd (History.fetchHistory unit catalogue
                           (Some (mkUser "u1")) (Ok true) (Ok (Some [])) []
                           (mkPage [] true None) (mkSt tt []))))
  = requested (trace (mkSt tt [])).
Proof.
  split; [reflexivity|].
  destruct (fetchHistory_no_request unit catalogue (Some (mkUser "u1"))
              (Ok true) (Ok (Some [])) [] (mkPage [] true None) (mkSt tt [])
              (or_intror (or_intror eq_refl))) as (_ & Hreq & _).
  exact Hreq.
Defined.

End PageSamples.

Section DeleteFurther.

Import History.

Variables Remote Store : Type.
Variable deleteWatchItem : HistoryItem → Remote → option Error * Remote.
Variable removeContinueWatchingItem : Z → Store → Store.
Variable fetchContinueWatching : Remote → Store → option Error * Store.

Abbreviation handleDelete :=
  (handleDelete Remote Store deleteWatchItem removeContinueWatchingItem
     fetchContinueWatching).

(** X18: whatever the backend answers, [handleDelete] takes every entry
    with the watch id of the entry off the page and keeps all the others, in
    their order; the backend is left as the delete left it.  The store is
    refetched only after a delete that succeeded; when the refetch succeeds
    too nothing is written to the console. *)
Theorem handleDelete_always_removes (itemToDelete : HistoryItem)
    (v : View Remote Store) :
  history (handleDelete itemToDelete v) =
    filter (λ item, watch_id item ≠ watch_id itemToDelete) (history v) ∧
  (∀ item, item ∈ history (handleDelete itemToDelete v) ↔
           item ∈ history v ∧ watch_id item ≠ watch_id itemToDelete) ∧
  remote (handleDelete itemToDelete v) =
    snd (deleteWatchItem itemToDelete (remote v)) ∧
  let store1 := removeContinueWatchingItem (media_id itemToDelete) (store v) in
  let remote1 := snd (deleteWatchItem itemToDelete (remote v)) in
  match fst (deleteWatchItem itemToDelete (remote v)) with
  | Some _ => store (handleDelete itemToDelete v) = store1
  | None =>
      store (handleDelete itemToDelete v) =
        snd (fetchContinueWatching remote1 store1) ∧
      (fst (fetchContinueWatching remote1 store1) = None →
       console (handleDelete itemToDelete v) = console v)
  end.
Proof.
  unfold History.handleDelete.
  destruct (deleteWatchItem itemToDelete (remote v)) as [[e|] remote1]; simpl.
  - split; [done|]. split; [|done]. intros item.
    rewrite list_elem_of_filter. tauto.
  - destruct (fetchContinueWatching remote1 _) as [[e|] store2]; simpl.
    + split; [done|]. split; [|done]. intros item.
      rewrite list_elem_of_filter. tauto.
    + split; [done|]. split; [|done]. intros item.
      rewrite list_elem_of_filter. tauto.
Qed.

End DeleteFurther.

(** * The countdown of the card *)

Section CardProperties.

Import MovieCard.

(** X19: for a positive number of seconds the countdown splits it into
    whole days and fewer than 24 whole hours, dropping less than an hour; it
    reads ["<1h"] below one hour, hours alone below one day, and days and
    hours from one day on. *)
Theorem timeText_decomposition (t : Z) :
  0 < t →
  0 ≤ days t ∧ 0 ≤ hours t < 24 ∧
  86400 * days t + 3600 * hours t ≤ t < 86400 * days t + 3600 * (hours t + 1) ∧
  (t < 3600 → timeText t = "<1h") ∧
  (3600 ≤ t < 86400 → 1 ≤ hours t ∧ timeText t = pretty (hours t) +:+ "h") ∧
  (86400 ≤ t →
   1 ≤ days t ∧
   timeText t = pretty (days t) +:+ "d " +:+ pretty (hours t) +:+ "h").
Proof.
  intros Ht. unfold timeText, days, hours.
  change (24 * 60 * 60) with 86400. change (60 * 60) with 3600.
  pose proof (Z.div_mod t 86400 ltac:(lia)) as Hd.
  pose proof (Z.mod_pos_bound t 86400 ltac:(lia)) as Hm.
  pose proof (Z.div_mod (t `mod` 86400) 3600 ltac:(lia)) as Hh.
  pose proof (Z.mod_pos_bound (t `mod` 86400) 3600 ltac:(lia)) as Hhm.
  assert (0 ≤ t `div` 86400) by (apply Z.div_pos; lia).
  assert (0 ≤ (t `mod` 86400) `div` 3600) by (apply Z.div_pos; lia).
  assert ((t `mod` 86400) `div` 3600 < 24)
    by (apply Z.div_lt_upper_bound; lia).
  split; [done|]. split; [lia|]. split; [lia|]. split; [|split].
  - intros Hlt.
    assert (t `div` 86400 = 0) as -> by (apply Z.div_small; lia).
    rewrite (Z.mod_small t 86400) by lia.
    assert (t `div` 3600 = 0) as -> by (apply Z.div_small; lia).
    reflexivity.
  - intros [Hge Hlt].
    assert (t `div` 86400 = 0) as Hz by (apply Z.div_small; lia).
    rewrite Hz. rewrite (Z.mod_small t 86400) in * by lia.
    assert (1 ≤ t `div` 3600) by (apply Z.div_le_lower_bound; lia).
    split; [done|]. simpl.
    by rewrite (proj2 (Z.ltb_lt 0 (t `div` 3600))) by lia.
  - intros Hge.
    assert (1 ≤ t `div` 86400) by (apply Z.div_le_lower_bound; lia).
    split; [done|].
    by rewrite (proj2 (Z.ltb_lt 0 (t `div` 86400))) by lia.
Qed.

Lemma timeText_decomposition_witness :
  0 < 93600 ∧ timeText 93600 = "1d 2h" ∧
  getNextEpisodeInfo "anime" (Some (mkNext 7 93600)) = Some "Ep 7 in 1d 2h".
Proof.
  assert (H : 0 < 93600) by lia.
  split; [exact H|].
  destruct (timeText_decomposition 93600 H) as (_ & _ & _ & _ & _ & Hday).
  destruct (Hday ltac:(lia)) as [_ Htext].
  split; [rewrite Htext; reflexivity|].
  unfold getNextEpisodeInfo. simpl. rewrite Htext. reflexivity.
Defined.

End CardProperties.

(** * The further properties on the sample services *)

Section FurtherSamples.

Import History.

Abbreviation start := (mkSt tt [] : St unit).

Lemma fetchWithRetry_timeout_witness :
  (∀ w, slow (fst (tarpit "/tmdb/movie/2" w))) ∧ 0 < 3 ∧
  fst (fetchWithRetry unit tarpit "/tmdb/movie/2" 3 1000 start)
    = Throw (mkError "Request timeout").
Proof.
  assert (H : ∀ w, slow (fst (tarpit "/tmdb/movie/2" w))).
  { intros w. simpl. lia. }
  assert (H3 : 0 < 3) by lia.
  split; [exact H|]. split; [exact H3|].
  destruct (fetchWithRetry_timeout unit tarpit "/tmdb/movie/2" 3 1000 start H H3)
    as [Hres _].
  exact Hres.
Defined.

(** The series is known, its episode is not: the entry of the row keeps
    the details of the series. *)
Lemma enrich_episode_failure_degrades_witness :
  is_episode row_lost = true ∧
  fst (enrich unit series row_lost start) = Ok (result_of heat_json row_lost).
Proof.
  assert (Hep : is_episode row_lost = true) by reflexivity.
  split; [exact Hep|].
  destruct (enrich_episode_failure_degrades unit series row_lost start
              ok_response heat_json
              (snd (fetchWithRetry unit series (details_url row_lost) 3 1000 start))
              (mkError "HTTP 404: Not Found")
              (snd (fetchWithRetry unit series (episode_url row_lost) 3 1000
                      (snd (fetchWithRetry unit series (details_url row_lost)
                              3 1000 start)))))
    as [Hrun _].
  - exact Hep.
  - vm_compute. reflexivity.
  - reflexivity.
  - vm_compute. reflexivity.
  - rewrite Hrun. reflexivity.
Defined.

Lemma enrich_episode_success_witness :
  is_episode row_lost = true ∧
  fst (enrich unit generous row_lost start)
    = Ok (with_episode (result_of heat_json row_lost) heat_json).
Proof.
  assert (Hep : is_episode row_lost = true) by reflexivity.
  split; [exact Hep|].
  destruct (enrich_episode_success unit generous row_lost start
              ok_response heat_json
              (snd (fetchWithRetry unit generous (details_url row_lost) 3 1000
                      start))
              ok_response heat_json
              (snd (fetchWithRetry unit generous (episode_url row_lost) 3 1000
                      (snd (fetchWithRetry unit generous (details_url row_lost)
                              3 1000 start)))))
    as [Hrun _].
  - exact Hep.
  - vm_compute. reflexivity.
  - reflexivity.
  - vm_compute. reflexivity.
  - reflexivity.
  - rewrite Hrun. reflexivity.
Defined.

Lemma enrich_bad_body_placeholder_witness :
  body (mkResponse true 200 "OK" None) = None ∧
  fst (enrich unit garbled row_heat start) = Ok (placeholder row_heat).
Proof.
  split; [reflexivity|].
  destruct (enrich_bad_body_placeholder unit garbled row_heat start
              (mkResponse true 200 "OK" None)
              (snd (fetchWithRetry unit garbled (details_url row_heat) 3 1000
                      start)))
    as [e Hrun].
  - vm_compute. reflexivity.
  - by left.
  - rewrite Hrun. reflexivity.
Defined.



End FurtherSamples.

(** * The watch id *)

Section WatchId.

Import History.

Lemma has_dash_pretty_N_go (x : N) :
  ∀ s, has_dash (pretty_N_go x s) = has_dash s.
Proof.
  induction (N.lt_wf_0 x) as [x _ IH]. intros s.
  destruct (decide (x = 0)%N) as [->|Hx]; [by rewrite pretty_N_go_0|].
  rewrite pretty_N_go_step by lia.
  rewrite IH by (apply N.div_lt; lia). simpl.
  unfold pretty_N_char. by repeat case_match.
Qed.

Lemma has_dash_pretty (z : Z) : 0 ≤ z → has_dash (pretty z) = false.
Proof.
  intros Hz. destruct z as [|x|x]; [done| |lia].
  unfold pretty, pretty_Z, pretty, pretty_positive, pretty, pretty_N.
  rewrite decide_False by done. apply has_dash_pretty_N_go.
Qed.

(** Two strings cut at their first dash agree piece by piece. *)
Lemma split_at_dash (a b r1 r2 : string) :
  has_dash a = false → has_dash b = false →
  a +:+ "-" +:+ r1 = b +:+ "-" +:+ r2 → a = b ∧ r1 = r2.
Proof.
  revert b. induction a as [|c a IH]; intros [|d b] Ha Hb Heq.
  - change (String "-" r1 = String "-" r2) in Heq. by injection Heq as ->.
  - change (String "-" r1 = String d (b +:+ "-" +:+ r2)) in Heq.
    injection Heq as <- _.
    simpl in Hb. by rewrite ?bool_decide_eq_true_2 in Hb.
  - change (String c (a +:+ "-" +:+ r1) = String "-" r2) in Heq.
    injection Heq as -> _.
    simpl in Ha. by rewrite ?bool_decide_eq_true_2 in Ha.
  - change (String c (a +:+ "-" +:+ r1) = String d (b +:+ "-" +:+ r2)) in Heq.
    injection Heq as -> Heq.
    simpl in Ha, Hb. apply orb_false_iff in Ha as [_ Ha].
    apply orb_false_iff in Hb as [_ Hb].
    destruct (IH b Ha Hb Heq) as [-> ->]. done.
Qed.

(** X20: among the plain rows of one user, two rows get the same watch id
    exactly when they are rows of the same media id, media type, season and
    episode, a missing season or episode counting as [0]: deleting an entry
    by its watch id takes no other episode and no other media off the
    page. *)
Theorem watch_id_of_unique (r1 r2 : RawItem) :
  plain_row r1 → plain_row r2 →
  item_user_id r1 = item_user_id r2 →
  watch_id_of r1 = watch_id_of r2 ↔ same_slot r1 r2.
Proof.
  intros (Hm1 & Ht1 & Hs1 & He1) (Hm2 & Ht2 & Hs2 & He2) Hu.
  unfold watch_id_of, same_slot. rewrite Hu. split.
  - intros H%(inj (String.app _)). injection H as H.
    apply split_at_dash in H as [Hm%(inj pretty) H];
      [|by apply has_dash_pretty..].
    apply split_at_dash in H as [Ht H]; [|done..].
    apply split_at_dash in H as [Hs%(inj pretty) He%(inj pretty)];
      [|by apply has_dash_pretty..].
    done.
  - by intros (-> & -> & -> & ->).
Qed.

Lemma watch_id_of_unique_witness :
  plain_row row_lost ∧ plain_row row_heat ∧
  item_user_id row_lost = item_user_id row_heat ∧
  (watch_id_of row_lost = watch_id_of row_heat ↔ same_slot row_lost row_heat).
Proof.
  assert (H1 : plain_row row_lost) by (repeat split; (reflexivity || by vm_compute)).
  assert (H2 : plain_row row_heat) by (repeat split; (reflexivity || by vm_compute)).
  split; [exact H1|]. split; [exact H2|]. split; [reflexivity|].
  exact (watch_id_of_unique row_lost row_heat H1 H2 eq_refl).
Defined.

End WatchId.
